(** * storage-dump: the decoder of a storage dump and its graph walk

    A shallow embedding of [crates/demo-esp32-s3/storage-dump.py].

    Python integers are unbounded and every integer of this program is
    non-negative (byte values, cursor positions, lengths, offsets), so they
    are modelled as [N].  A [bytes] object is a [list byte].  The mutable
    [Cursor] object is threaded as state; a raised exception leaves the
    state as it was when the exception was raised.  The calls of [print]
    only format values that are already decoded ([peek_bytes] never
    raises) and change no state: they are left out. *)

From Stdlib.Strings Require Import String Ascii Byte.
From Stdlib Require Import List Arith NArith Lia Bool DecimalString DecimalN DecimalPos FinFun.
Import ListNotations.
Local Open Scope N_scope.

(** ** Python values, exceptions and built-ins *)

Module Py.

Definition bytes := list byte.

Inductive exn : Type :=
| IndexError                    (* index out of range *)
| StructError                   (* struct.error: buffer of the wrong size *)
| ZeroDivisionError
| AttributeError (attr : string)
| TypeError                     (* 'NoneType' object is not subscriptable *)
| Exception (msg : string).

(** The result of running a piece of code: a value, a raised exception,
    or the model's recursion budget used up. *)
Inductive outcome (A : Type) : Type :=
| Ok (a : A)
| Raise (e : exn)
| OutOfFuel.
Arguments Ok {A} a.
Arguments Raise {A} e.
Arguments OutOfFuel {A}.

(** [b[lo:hi]] for non-negative [lo] and [hi]: clipped at the end of [b],
    empty when [hi <= lo]. *)
Definition slice (b : bytes) (lo hi : N) : bytes :=
  firstn (N.to_nat (hi - lo)) (skipn (N.to_nat lo) b).

(** [b[i]] for a non-negative [i]. *)
Definition index (b : bytes) (i : N) : outcome N :=
  match nth_error b (N.to_nat i) with
  | Some v => Ok (Byte.to_N v)
  | None => Raise IndexError
  end.

Fixpoint bytes_eqb (x y : bytes) : bool :=
  match x, y with
  | [], [] => true
  | u :: x', v :: y' => Byte.eqb u v && bytes_eqb x' y'
  | _, _ => false
  end.

(** The little-endian value of a byte string. *)
Fixpoint le_int (bs : bytes) : N :=
  match bs with
  | [] => 0
  | x :: rest => Byte.to_N x + 256 * le_int rest
  end.

(** [struct.unpack('<H', bs)[0]] (width 2) and [struct.unpack('<I', bs)[0]]
    (width 4): the buffer must have exactly the width of the format. *)
Definition unpack (width : nat) (bs : bytes) : outcome N :=
  if Nat.eqb (length bs) width then Ok (le_int bs) else Raise StructError.

(** [struct.unpack_from('<I', b, offset)[0]]: at least 4 bytes must be
    left from [offset] on. *)
Definition unpack_from_I (b : bytes) (offset : N) : outcome N :=
  let bs := slice b offset (offset + 4) in
  if Nat.eqb (length bs) 4 then Ok (le_int bs) else Raise StructError.

(** [f'{n}'] for a non-negative integer. *)
Definition str (n : N) : string := NilZero.string_of_uint (N.to_uint n).

(** Code that runs on a mutable state [S]: it returns a value or raises,
    and leaves a new state either way (what was mutated before an
    exception stays mutated). *)
Definition run (S A : Type) : Type := S -> outcome A * S.

Definition ret {S A} (a : A) : run S A := fun s => (Ok a, s).
Definition raise {S A} (e : exn) : run S A := fun s => (Raise e, s).
Definition bind {S A B} (m : run S A) (k : A -> run S B) : run S B :=
  fun s =>
    match m s with
    | (Ok a, s') => k a s'
    | (Raise e, s') => (Raise e, s')
    | (OutOfFuel, s') => (OutOfFuel, s')
    end.

(** [for x in l: body(x)] *)
Fixpoint for_each {S A} (l : list A) (body : A -> run S unit) : run S unit :=
  match l with
  | [] => ret tt
  | x :: l' => bind (body x) (fun _ => for_each l' body)
  end.

End Py.
Import Py.

Declare Scope run_scope.
Delimit Scope run_scope with run.
Notation "x <- m ;; k" := (bind m (fun x => k))
  (at level 61, m at next level, right associativity) : run_scope.
Notation "m ;;; k" := (bind m (fun _ => k))
  (at level 61, right associativity) : run_scope.
Local Open Scope run_scope.

Definition DATA_OFFSET : N := 4096.
Definition STORAGE_HEADER_MAGIC : bytes := [x1c; x53; x4f; x00].
Definition SEGMENT_HEADER_MAGIC : bytes := [x1e; x53; x4f; x00].

(** ** class Cursor (and class Prior, which [get_prior] builds) *)

Module Cursor.

Record t : Type := mk { b : bytes; c : N; rkyv : bool }.

(** [Cursor(b, rkyv=...)] *)
Definition init (buf : bytes) (rk : bool) : t := mk buf 0 rk.

(** A method of the cursor: it returns a value or raises, and leaves the
    cursor in a new state either way. *)
Definition M (A : Type) : Type := run t A.

(** [self.c = v] *)
Definition set_c (cur : t) (v : N) : t := mk (b cur) v (rkyv cur).

Definition align (to : N) : M unit :=
  fun cur =>
    if to =? 0 then (Raise ZeroDivisionError, cur)
    else if negb (c cur mod to =? 0)
         then (Ok tt, set_c cur (c cur + (to - c cur mod to)))
         else (Ok tt, cur).

Definition get_u8 : M N :=
  fun cur =>
    match index (b cur) (c cur) with
    | Ok v => (Ok v, set_c cur (c cur + 1))
    | Raise e => (Raise e, cur)
    | OutOfFuel => (OutOfFuel, cur)
    end.

Definition get_bool : M bool :=
  v <- get_u8 ;; ret (negb (v =? 0)).

Definition peek_bytes (n : N) (cur : t) : bytes :=
  slice (b cur) (c cur) (c cur + n).

Definition get_bytes (n : N) : M bytes :=
  fun cur => (Ok (peek_bytes n cur), set_c cur (c cur + n)).

Definition when_rkyv_align : M unit :=
  fun cur => if rkyv cur then align 4 cur else (Ok tt, cur).

Definition get_u16 : M N :=
  when_rkyv_align ;;;
  bs <- get_bytes 2 ;;
  fun cur => (unpack 2 bs, cur).

Definition get_u32 : M N :=
  when_rkyv_align ;;;
  bs <- get_bytes 4 ;;
  fun cur => (unpack 4 bs, cur).

Definition get_option {A} (subtype_decoder : M A) : M (option A) :=
  exists_ <- get_bool ;;
  if exists_ : bool then (v <- subtype_decoder ;; ret (Some v)) else ret None.

(** The [while] loop of [get_leb]: [bv] is the byte read last, [vl] the
    groups appended so far.  Each turn reads one byte, so the loop makes
    at most as many turns as the buffer has bytes; [fuel] bounds them. *)
Fixpoint leb_while (fuel : nat) (bv : N) (vl : list N) : M (N * list N) :=
  if negb (N.land bv 0x80 =? 0) then
    match fuel with
    | O => fun cur => (OutOfFuel, cur)
    | S fuel' =>
        let vl := (vl ++ [N.land bv 0x7F])%list in
        bv' <- get_u8 ;;
        leb_while fuel' bv' vl
    end
  else ret (bv, vl).

(** [v = 0; for vv in reversed(vl): v = (v << 7) | vv] *)
Definition leb_combine (vl : list N) : N :=
  fold_left (fun v vv => N.lor (N.shiftl v 7) vv) (rev vl) 0.

Definition get_leb : M N :=
  fun cur =>
    (bv <- get_u8 ;;
     r <- leb_while (length (b cur)) bv [] ;;
     let vl := (snd r ++ [fst r])%list in
     ret (leb_combine vl)) cur.

Definition get_byte_array : M bytes :=
  l <- get_leb ;; get_bytes l.

(** [for i in range(0, n): arr.append(subtype_decoder(c))] *)
Fixpoint for_range {A} (n : nat) (subtype_decoder : M A) (arr : list A)
  : M (list A) :=
  match n with
  | O => ret arr
  | S n' => v <- subtype_decoder ;; for_range n' subtype_decoder (arr ++ [v])%list
  end.

Definition get_array {A} (subtype_decoder : M A) : M (list A) :=
  l <- get_leb ;; for_range (N.to_nat l) subtype_decoder [].

(** The class [Cursor] has no method [get_string]: looking the attribute
    up raises [AttributeError]. *)
Definition get_string : M bytes := raise (AttributeError "get_string").

(** class Prior *)
Record Prior (A : Type) : Type := mkPrior { values : list A }.
Arguments mkPrior {A} values.
Arguments values {A} p.

(** [Prior.__init__(self, c, subtype_decoder)] *)
Definition Prior_init {A} (subtype_decoder : M A) : M (Prior A) :=
  tag <- get_leb ;;
  if 2 <? tag then raise (Exception "too many items in prior")
  else vs <- for_range (N.to_nat tag) subtype_decoder [] ;;
       ret (mkPrior vs).

Definition get_prior {A} (subtype_decoder : M A) : M (Prior A) :=
  Prior_init subtype_decoder.

End Cursor.
Import Cursor.

(** ** class Header *)

Module Header.

Record t : Type :=
  mk { epoch : N;
       graph_id : option bytes;
       head : option (N * N);
       stored_bytes : N }.

(** The body of [Header.__init__], on the cursor it creates. *)
Definition decode : Cursor.M t :=
  magic <- get_bytes 4 ;;
  if negb (bytes_eqb magic STORAGE_HEADER_MAGIC)
  then raise (Exception "bad header magic")
  else
    epoch <- get_u32 ;;
    graph_id <- get_option (get_bytes 32) ;;
    align 4 ;;;
    head <- get_option (h0 <- get_u32 ;; h1 <- get_u32 ;; ret (h0, h1)) ;;
    stored_bytes <- get_u32 ;;
    ret (mk epoch graph_id head stored_bytes).

(** [Header(b)]; the cursor is returned too, to tell what was read. *)
Definition init (b : bytes) : outcome t * Cursor.t :=
  decode (Cursor.init b true).

End Header.

Definition decode_location : Cursor.M (N * N) :=
  l1 <- get_leb ;;
  l2 <- get_leb ;;
  ret (l1, l2).

Definition decode_address : Cursor.M (bytes * N) :=
  l1 <- get_bytes 32 ;;
  l2 <- get_leb ;;
  ret (l1, l2).

(** ** class CommandData *)

Module CommandData.

(** An element of [updates]: (name, values, delta). *)
Definition update : Type := bytes * list bytes * option bytes.

Record t : Type :=
  mk { id : bytes;
       priority : N;
       priority_value : option N;
       policy : option bytes;
       data : bytes;
       updates : list update }.

(** The lambda that decodes one element of [updates]; the elements of the
    tuple are evaluated from left to right. *)
Definition decode_update : Cursor.M update :=
  name <- get_string ;;
  vals <- get_array get_byte_array ;;
  delta <- get_option get_byte_array ;;
  ret (name, vals, delta).

Definition init : Cursor.M t :=
  id <- get_bytes 32 ;;
  priority <- get_leb ;;
  priority_value <- (if priority =? 1
                     then (v <- get_leb ;; ret (Some v))
                     else ret None) ;;
  policy <- get_option get_byte_array ;;
  data <- get_byte_array ;;
  updates <- get_array decode_update ;;
  ret (mk id priority priority_value policy data updates).

End CommandData.

(** ** class Segment *)

Module Segment.

(** The attributes of a segment; [type] is [None] while the attribute is
    not set. *)
Record t : Type :=
  mk { offset : N;
       size : N;
       data : bytes;
       prior : Prior (N * N);
       parents : Prior (bytes * N);
       policy : bytes;
       facts : N;
       type : option string }.

(** The [if]/[elif] chain at the end of [decode_data]. *)
Definition classify (n : nat) : option string :=
  match n with
  | 0%nat => Some "init"%string
  | 1%nat => Some "basic"%string
  | 2%nat => Some "merge"%string
  | _ => None
  end.

(** What [decode_data] reads from the payload: the attributes it sets,
    and its local variables [offset], [commands], [max_cut] and
    [skip_list]. *)
Record payload : Type :=
  mkPayload { p_offset : N;
              p_prior : Prior (N * N);
              p_parents : Prior (bytes * N);
              p_policy : bytes;
              p_facts : N;
              p_commands : list CommandData.t;
              p_max_cut : N;
              p_skip_list : list ((N * N) * N) }.

Definition decode_skip : Cursor.M ((N * N) * N) :=
  u <- get_leb ;; v <- get_leb ;; w <- get_leb ;; ret ((u, v), w).

Definition decode_payload : Cursor.M payload :=
  offset <- get_leb ;;
  prior <- get_prior decode_location ;;
  parents <- get_prior decode_address ;;
  policy <- get_bytes 32 ;;
  facts <- get_leb ;;
  commands <- get_array CommandData.init ;;
  max_cut <- get_leb ;;
  skip_list <- get_array decode_skip ;;
  ret (mkPayload offset prior parents policy facts commands max_cut skip_list).

(** [decode_data] for a segment whose [offset], [size] and [data] are
    set. *)
Definition decode_data (offset size : N) (data : bytes) : outcome t :=
  match fst (decode_payload (Cursor.init data false)) with
  | Ok p =>
      Ok (mk offset size data (p_prior p) (p_parents p) (p_policy p)
            (p_facts p)
            (classify (length (values (p_parents p)))))
  | Raise e => Raise e
  | OutOfFuel => OutOfFuel
  end.

(** [read], over the global buffer [b]. *)
Definition read (b : bytes) (offset : N) : outcome t :=
  if negb (bytes_eqb (slice b (offset + DATA_OFFSET) (offset + DATA_OFFSET + 4))
             SEGMENT_HEADER_MAGIC)
  then Raise (Exception ("bad segment header magic @" ++ str offset))
  else
    match unpack_from_I b (offset + DATA_OFFSET + 4) with
    | Ok size =>
        let data := slice b (offset + DATA_OFFSET + 8)
                      (offset + DATA_OFFSET + 8 + size) in
        decode_data offset size data
    | Raise e => Raise e
    | OutOfFuel => OutOfFuel
    end.

(** [Segment(offset)] *)
Definition init (b : bytes) (offset : N) : outcome t := read b offset.

End Segment.

(** ** The script: its global state, the walk and the export *)

(** A [dict] keyed by integers, in insertion order. *)
Definition dict (V : Type) : Type := list (N * V).

Fixpoint dict_contains {V} (k : N) (d : dict V) : bool :=
  match d with
  | [] => false
  | (k', _) :: d' => (k =? k') || dict_contains k d'
  end.

(** [d[k] = v]: a present key keeps its place, a new key goes last. *)
Fixpoint dict_set {V} (k : N) (v : V) (d : dict V) : dict V :=
  match d with
  | [] => [(k, v)]
  | (k', v') :: d' => if k =? k' then (k, v) :: d' else (k', v') :: dict_set k v d'
  end.

Definition dict_keys {V} (d : dict V) : list N := map fst d.
Definition dict_values {V} (d : dict V) : list V := map snd d.

(** The state of the script: the global [segments], the file [graph.dot]
    ([None] until it is opened, then the strings written to it), and
    [calls], a trace of the calls [Segment(offset)] in the order they are
    made; nothing in the script reads [calls]. *)
Record World : Type :=
  mkWorld { segments : dict Segment.t;
            dot : option (list string);
            calls : list N }.

Definition world0 : World := mkWorld [] None [].

Section Script.

(** The global [b]: the contents of the file. *)
Variable b : bytes.

(** [Segment(offset)], evaluated by the script. *)
Definition new_Segment (offset : N) : run World Segment.t :=
  fun w =>
    (Segment.init b offset,
     mkWorld (segments w) (dot w) (calls w ++ [offset])).

Definition segments_setitem (offset : N) (seg : Segment.t) : run World unit :=
  fun w => (Ok tt, mkWorld (dict_set offset seg (segments w)) (dot w) (calls w)).

(** [fuel] bounds the depth of the recursion; the limit that the
    interpreter puts on it is not modelled.  [seg.prior] is a [Prior]
    object, never [None]: the test of line 190 always fails. *)
Fixpoint walk_segment_tree (fuel : nat) (offset : N) : run World unit :=
  match fuel with
  | O => fun w => (OutOfFuel, w)
  | S fuel' =>
      fun w =>
        if dict_contains offset (segments w) then (Ok tt, w)
        else
          (seg <- new_Segment offset ;;
           segments_setitem offset seg ;;;
           for_each (values (Segment.prior seg))
             (fun p => walk_segment_tree fuel' (fst p))) w
  end.

(** [open('graph.dot', 'w')], taken to succeed. *)
Definition dot_open : run World unit :=
  fun w => (Ok tt, mkWorld (segments w) (Some []) (calls w)).

Definition dot_write (s : string) : run World unit :=
  fun w =>
    (Ok tt,
     mkWorld (segments w) (option_map (fun l => l ++ [s]) (dot w)) (calls w)).

Definition nl : string := String (ascii_of_N 10) EmptyString.
Definition dq : string := String (ascii_of_N 34) EmptyString.

Definition node_line (o : N) : string :=
  ("    segment_" ++ str o ++ " [label=" ++ dq ++ "Segment " ++ str o ++ dq
     ++ ", shape=rectangle]" ++ nl)%string.

Definition edge_line (o p : N) : string :=
  ("    segment_" ++ str o ++ " -> segment_" ++ str p ++ nl)%string.

(** Lines 196 to 204: the export of the graph. *)
Definition export : run World unit :=
  dot_open ;;;
  dot_write ("digraph {" ++ nl)%string ;;;
  (fun w =>
     for_each (dict_values (segments w))
       (fun s =>
          dot_write (node_line (Segment.offset s)) ;;;
          for_each (values (Segment.prior s))
            (fun p => dot_write (edge_line (Segment.offset s) (fst p)))) w) ;;;
  dot_write ("}" ++ nl)%string.

(** [h.head[0]] *)
Definition head_0 (h : Header.t) : run World N :=
  match Header.head h with
  | Some p => ret (fst p)
  | None => raise TypeError
  end.

(** The script from line 179 on.  A walk never nests deeper than the
    number of segments it has mapped, and a mapped segment starts inside
    the buffer: this budget is never used up (see [main_total]). *)
Definition script : run World unit :=
  h <- (fun w => (fst (Header.init b), w)) ;;
  o <- head_0 h ;;
  head_seg <- new_Segment o ;;
  o' <- head_0 h ;;
  walk_segment_tree (S (length b)) o' ;;;
  export.

End Script.

(** A run of the script on the file contents [b]; [segments = {}] at
    line 179 and no file is open. *)
Definition main (b : bytes) : outcome unit * World := script b world0.

(** ** The wire format, as the specification words it

    A format relates a byte string to the value it encodes. *)

Module Wire.

Definition format (A : Type) : Type := bytes -> A -> Prop.

(** A variable-length integer: the low 7 bits of each byte are data, a
    set high bit says that more bytes follow, and the least significant
    group comes first. *)
Inductive leb : format N :=
| leb_last (x : byte) :
    Byte.to_N x < 128 -> leb [x] (Byte.to_N x)
| leb_more (x : byte) (more : bytes) (n : N) :
    128 <= Byte.to_N x -> leb more n ->
    leb (x :: more) (Byte.to_N x - 128 + 128 * n).

(** [n] raw bytes. *)
Definition raw (n : nat) : format bytes :=
  fun bs v => bs = v /\ length v = n.

Definition pair {A B} (fa : format A) (fb : format B) : format (A * B) :=
  fun bs v => exists b1 b2, bs = b1 ++ b2 /\ fa b1 (fst v) /\ fb b2 (snd v).

(** Values one after the other. *)
Inductive seq {A} (f : format A) : format (list A) :=
| seq_nil : seq f [] []
| seq_cons (b1 b2 : bytes) (v : A) (vs : list A) :
    f b1 v -> seq f b2 vs -> seq f (b1 ++ b2) (v :: vs).

(** A length-prefixed sequence. *)
Definition counted {A} (f : format A) : format (list A) :=
  fun bs vs =>
    exists b1 b2,
      bs = b1 ++ b2 /\ leb b1 (N.of_nat (length vs)) /\ seq f b2 vs.

(** A bounded list: a length-prefixed sequence of at most 2 values. *)
Definition bounded {A} (f : format A) : format (Prior A) :=
  fun bs p => (length (values p) <= 2)%nat /\ counted f bs (values p).

(** A length-prefixed byte blob. *)
Definition blob : format bytes :=
  fun bs v => exists b1, bs = b1 ++ v /\ leb b1 (N.of_nat (length v)).

(** An optional value: a presence flag, then the value if it is set. *)
Inductive opt {A} (f : format A) : format (option A) :=
| opt_none : opt f [x00] None
| opt_some (x : byte) (bs : bytes) (v : A) :
    x <> x00 -> f bs v -> opt f (x :: bs) (Some v).

Definition location : format (N * N) := pair leb leb.
Definition address : format (bytes * N) := pair (raw 32) leb.
Definition skip : format ((N * N) * N) := pair (pair leb leb) leb.

(** (name, values, delta) *)
Definition update : format CommandData.update :=
  pair (pair blob (counted blob)) (opt blob).

(** The conditional field [priority_value]. *)
Definition priority_value (tag : N) : format (option N) :=
  fun bs v =>
    if tag =? 1 then exists n, v = Some n /\ leb bs n
    else v = None /\ bs = [].

Definition command : format CommandData.t :=
  fun bs cmd =>
    exists b1 b2 b3 b4 b5 b6,
      bs = b1 ++ b2 ++ b3 ++ b4 ++ b5 ++ b6 /\
      raw 32 b1 (CommandData.id cmd) /\
      leb b2 (CommandData.priority cmd) /\
      priority_value (CommandData.priority cmd) b3
        (CommandData.priority_value cmd) /\
      opt blob b4 (CommandData.policy cmd) /\
      blob b5 (CommandData.data cmd) /\
      counted update b6 (CommandData.updates cmd).

(** The payload of a segment, its fields in their fixed order. *)
Definition payload : format Segment.payload :=
  fun bs p =>
    exists b1 b2 b3 b4 b5 b6 b7 b8,
      bs = b1 ++ b2 ++ b3 ++ b4 ++ b5 ++ b6 ++ b7 ++ b8 /\
      leb b1 (Segment.p_offset p) /\
      bounded location b2 (Segment.p_prior p) /\
      bounded address b3 (Segment.p_parents p) /\
      raw 32 b4 (Segment.p_policy p) /\
      leb b5 (Segment.p_facts p) /\
      counted command b6 (Segment.p_commands p) /\
      leb b7 (Segment.p_max_cut p) /\
      counted skip b8 (Segment.p_skip_list p).

End Wire.

(** The bytes from the position of the cursor on, and the cursor moved
    forward. *)
Definition rest (cur : Cursor.t) : bytes :=
  skipn (N.to_nat (c cur)) (b cur).

Definition advance (cur : Cursor.t) (n : nat) : Cursor.t :=
  set_c cur (c cur + N.of_nat n).

(** A decoder reads a format: on every cursor that stands before an
    encoding of [v] it returns [v] and moves past the encoding. *)
Definition parses {A} (D : Cursor.M A) (F : Wire.format A) : Prop :=
  forall cur bs v r,
    F bs v -> rest cur = bs ++ r -> D cur = (Ok v, advance cur (length bs)).

(** The data bits of a byte of a variable-length integer. *)
Definition low7 (x : byte) : N := N.land (Byte.to_N x) 0x7F.

(** The next multiple of [to] from [pos] on, where [align to] moves the
    cursor. *)
Definition align_up (to pos : N) : N :=
  if pos mod to =? 0 then pos else pos + (to - pos mod to).

(** Where [get_u16] and [get_u32] read their bytes. *)
Definition read_pos (cur : Cursor.t) : N :=
  if rkyv cur then align_up 4 (c cur) else c cur.

(** [parses], for the values that satisfy [P] only. *)
Definition parses_on {A} (P : A -> Prop) (D : Cursor.M A) (F : Wire.format A)
  : Prop :=
  forall cur bs v r,
    P v -> F bs v -> rest cur = bs ++ r ->
    D cur = (Ok v, advance cur (length bs)).

(** The decoder of a command raises on every element of [updates] (see
    [updates_raise]): the commands it reads have none. *)
Definition no_updates (cmd : CommandData.t) : Prop :=
  CommandData.updates cmd = [].

(** ** Sample dumps *)

Definition sample_policy : bytes := repeat xaa 32.

(** The payload of a root segment: offset 0, no prior, no parents, the
    policy, 5 facts, no commands, max_cut 7, an empty skip list. *)
Definition sample_root_payload : bytes :=
  [x00; x00; x00] ++ sample_policy ++ [x05; x00; x07; x00].



Definition sample_root_fields : Segment.payload :=
  Segment.mkPayload 0 (mkPrior []) (mkPrior []) sample_policy 5 [] 7 [].

(** A command with one element in [updates]: the id, priority 0, no
    policy, empty data, then the count 1 and the update (name "a", no
    values, no delta). *)
Definition sample_command : bytes :=
  repeat x11 32 ++ [x00; x00; x00; x01; x01; x61; x00; x00].

(** A command of priority 1 (Basic) with the value 9, and one of priority
    2; both with a policy of one byte, empty data and no updates. *)
Definition sample_basic_command : bytes :=
  repeat x11 32 ++ [x01; x09; x01; x01; x33; x00; x00].

Definition sample_other_command : bytes :=
  repeat x11 32 ++ [x02; x01; x01; x33; x00; x00].

(** A segment with two parents. *)
Definition sample_merge_dump : bytes :=
  repeat x00 4096 ++ SEGMENT_HEADER_MAGIC ++ [x69; x00; x00; x00]
    ++ [x00; x00; x02] ++ repeat xb1 32 ++ [x01] ++ repeat xb2 32 ++ [x02]
    ++ sample_policy ++ [x05; x00; x07; x00].

Definition sample_merge_segment : Segment.t :=
  Segment.mk 0 105 (skipn 4104 sample_merge_dump) (mkPrior [])
    (mkPrior [(repeat xb1 32, 1); (repeat xb2 32, 2)])
    sample_policy 5 (Some "merge"%string).

Definition sample_basic_fields : CommandData.t :=
  CommandData.mk (repeat x11 32) 1 (Some 9) (Some [x33]) [] [].

Definition sample_other_fields : CommandData.t :=
  CommandData.mk (repeat x11 32) 2 None (Some [x33]) [] [].

(** Where the presence flag of [head] stands in the header, given the
    presence flag of [graph_id]: after the magic, the epoch, the flag of
    [graph_id] at 8 and, if that is set, the 32 bytes of the identifier,
    at the next multiple of 4. *)
Definition head_flag_pos (gflag : N) : N := if gflag =? 0 then 12 else 44.

(** Code that never uses up the recursion budget of the model. *)
Definition total {S A} (m : run S A) : Prop :=
  forall s, fst (m s) <> OutOfFuel.

(** A header with epoch 3, no graph_id, the head (128, 9) and 77 stored
    bytes; and one with no head. *)
Definition sample_header : bytes :=
  STORAGE_HEADER_MAGIC ++ [x03; x00; x00; x00] ++ [x00; x00; x00; x00]
    ++ [x01; x00; x00; x00] ++ [x80; x00; x00; x00] ++ [x09; x00; x00; x00]
    ++ [x4d; x00; x00; x00].

Definition sample_header_fields : Header.t :=
  Header.mk 3 None (Some (128, 9)) 77.

Definition sample_headless : bytes :=
  STORAGE_HEADER_MAGIC ++ [x03; x00; x00; x00] ++ [x00; x00; x00; x00]
    ++ [x00; x00; x00; x00] ++ [x4d; x00; x00; x00].

Definition sample_headless_fields : Header.t := Header.mk 3 None None 77.

(** ** The graph of prior references *)

(** The offsets a segment refers to through [prior]: [p[0]] for each
    [p]. *)
Definition prior_targets (s : Segment.t) : list N :=
  map fst (values (Segment.prior s)).

(** [o'] is a prior reference of the segment at [o]. *)
Definition prior_edge (bs : bytes) (o o' : N) : Prop :=
  exists s, Segment.read bs o = Ok s /\ In o' (prior_targets s).

Inductive reachable (bs : bytes) (o : N) : N -> Prop :=
| reach_here : reachable bs o o
| reach_step (k k' : N) :
    reachable bs o k -> prior_edge bs k k' -> reachable bs o k'.

(** What a walk from the offsets [roots] does to the state [w]: it maps
    new segments, each decoded by one call at its offset and reachable
    from a root, and it leaves the roots and every prior reference of a new
    segment mapped. *)
Definition extends (bs : bytes) (roots : list N) (w w' : World) : Prop :=
  exists new : dict Segment.t,
    segments w' = segments w ++ new
    /\ calls w' = calls w ++ dict_keys new
    /\ dot w' = dot w
    /\ (forall o, In o roots -> In o (dict_keys (segments w')))
    /\ (forall k s,
           In (k, s) new ->
           Segment.read bs k = Ok s
           /\ (exists o, In o roots /\ reachable bs o k)
           /\ (forall t, In t (prior_targets s) ->
                         In t (dict_keys (segments w'))))
    /\ (NoDup (dict_keys (segments w)) -> NoDup (dict_keys (segments w'))).

(** The keys of [segments] are distinct offsets of the buffer. *)
Definition mapped_in (bs : bytes) (w : World) : Prop :=
  NoDup (dict_keys (segments w))
  /\ Forall (fun k => k < N.of_nat (length bs)) (dict_keys (segments w)).




Definition sample_tail : bytes := sample_policy ++ [x05; x00; x07; x00].




(** ** Further definitions: invariants and encoders

    The script only decodes.  The encoders below write values the way the
    decoders read them; they serve to state round trips. *)

(** A decoder keeps the frame of the cursor: whatever it returns or
    raises, the buffer and the mode are the ones it started with and the
    position has not moved backwards. *)
Definition keeps_frame {A} (m : Cursor.M A) : Prop :=
  forall cur,
    b (snd (m cur)) = b cur
    /\ rkyv (snd (m cur)) = rkyv cur
    /\ c cur <= c (snd (m cur)).

(** The byte of value [n mod 256]. *)
Definition byte_of_N (n : N) : byte :=
  match Byte.of_N (n mod 256) with
  | Some x => x
  | None => x00
  end.

(** [n.to_bytes(width, 'little')] *)
Fixpoint le_bytes (width : nat) (n : N) : bytes :=
  match width with
  | O => []
  | S w => byte_of_N n :: le_bytes w (n / 256)
  end.

(** The shortest variable-length integer of value [n]; [fuel] bounds the
    number of groups. *)
Fixpoint encode_leb_fuel (fuel : nat) (n : N) : bytes :=
  match fuel with
  | O => [byte_of_N n]
  | S fuel' =>
      if n <? 128 then [byte_of_N n]
      else byte_of_N (n mod 128 + 128) :: encode_leb_fuel fuel' (n / 128)
  end.

Definition encode_leb (n : N) : bytes :=
  encode_leb_fuel (N.to_nat (N.size n)) n.

(** A header in the word-aligned layout: the magic, the epoch, the flag
    of graph_id and the identifier, padding to a multiple of 4, the flag of
    head, padding to a multiple of 4, the two words of the head, and
    stored_bytes. *)
Definition encode_header (h : Header.t) : bytes :=
  STORAGE_HEADER_MAGIC
    ++ le_bytes 4 (Header.epoch h)
    ++ match Header.graph_id h with
       | Some g => [x01] ++ g
       | None => [x00]
       end
    ++ [x00; x00; x00]
    ++ match Header.head h with
       | Some p => [x01; x00; x00; x00] ++ le_bytes 4 (fst p) ++ le_bytes 4 (snd p)
       | None => [x00; x00; x00; x00]
       end
    ++ le_bytes 4 (Header.stored_bytes h).

(** The fields of a header fit their widths. *)
Definition header_fits (h : Header.t) : Prop :=
  Header.epoch h < 2 ^ 32
  /\ Header.stored_bytes h < 2 ^ 32
  /\ match Header.graph_id h with
     | Some g => length g = 32%nat
     | None => True
     end
  /\ match Header.head h with
     | Some p => fst p < 2 ^ 32 /\ snd p < 2 ^ 32
     | None => True
     end.

(** [f'{v:02X}'] for a byte value, and [hexstr]. *)
Definition hex_digit (d : N) : ascii :=
  nth (N.to_nat d)
    (list_ascii_of_string "0123456789ABCDEF") "0"%char.

Definition format_02X (v : N) : string :=
  String (hex_digit (v / 16)) (String (hex_digit (v mod 16)) EmptyString).

Definition hexstr (bs : bytes) : string :=
  String.concat "" (map (fun x => format_02X (Byte.to_N x)) bs).

(** A segment at offset 0 whose prior refers to itself. *)
Definition sample_cycle_dump : bytes :=
  repeat x00 4096 ++ SEGMENT_HEADER_MAGIC ++ [x2a; x00; x00; x00]
    ++ [x00] ++ [x01; x00; x00] ++ [x00] ++ sample_tail.

(** * Proofs *)
(** ** Bytes and bits *)

Lemma byte_high_bit (x : byte) :
  (N.land (Byte.to_N x) 0x80 =? 0) = (Byte.to_N x <? 128).
Proof. destruct x; reflexivity. Qed.

Lemma byte_low7 (x : byte) :
  N.land (Byte.to_N x) 0x7F = Byte.to_N x mod 128.
Proof. destruct x; reflexivity. Qed.

Lemma byte_lt_256 (x : byte) : Byte.to_N x < 256.
Proof. destruct x; reflexivity. Qed.

Lemma shift7_or (v g : N) :
  g < 128 -> N.lor (N.shiftl v 7) g = 128 * v + g.
Proof.
  intros Hg.
  assert (Hland : N.land (N.shiftl v 7) g = 0).
  { apply N.bits_inj. intros i. rewrite N.land_spec, N.bits_0.
    destruct (N.lt_ge_cases i 7) as [Hi | Hi].
    - rewrite N.shiftl_spec_low by assumption. reflexivity.
    - replace (N.testbit g i) with false; [apply andb_false_r |].
      symmetry. destruct (N.eq_dec g 0) as [-> | Hnz]; [apply N.bits_0 |].
      apply N.bits_above_log2.
      apply N.lt_le_trans with 7; [| assumption].
      apply N.log2_lt_pow2; [lia | exact Hg]. }
  rewrite <- N.lxor_lor by assumption.
  rewrite <- N.add_nocarry_lxor by assumption.
  rewrite N.shiftl_mul_pow2. change (2 ^ 7) with 128. lia.
Qed.

(** ** The cursor *)

Lemma set_c_same (cur : Cursor.t) : set_c cur (c cur) = cur.
Proof. destruct cur; reflexivity. Qed.

Lemma advance_0 (cur : Cursor.t) : advance cur 0 = cur.
Proof.
  unfold advance. simpl N.of_nat. rewrite N.add_0_r. apply set_c_same.
Qed.

Lemma advance_advance (cur : Cursor.t) (n m : nat) :
  advance (advance cur n) m = advance cur (n + m).
Proof.
  unfold advance, set_c; simpl. f_equal. lia.
Qed.

Lemma advance_b (cur : Cursor.t) (n : nat) : b (advance cur n) = b cur.
Proof. reflexivity. Qed.

Lemma rest_advance (cur : Cursor.t) (bs r : bytes) :
  rest cur = bs ++ r -> rest (advance cur (length bs)) = r.
Proof.
  unfold rest, advance; simpl. intros H.
  replace (N.to_nat (c cur + N.of_nat (length bs)))
    with (length bs + N.to_nat (c cur))%nat by lia.
  rewrite <- skipn_skipn, H.
  rewrite skipn_app, skipn_all, Nat.sub_diag. reflexivity.
Qed.

Lemma rest_length (cur : Cursor.t) : (length (rest cur) <= length (b cur))%nat.
Proof. unfold rest. rewrite length_skipn. lia. Qed.

Lemma skipn_cons_nth {A} (l : list A) (n : nat) (x : A) (r : list A) :
  skipn n l = x :: r -> nth_error l n = Some x.
Proof.
  intros H. rewrite <- hd_error_skipn, H. reflexivity.
Qed.

Lemma skipn_nil_nth {A} (l : list A) (n : nat) :
  skipn n l = [] -> nth_error l n = None.
Proof.
  intros H. rewrite <- hd_error_skipn, H. reflexivity.
Qed.

Lemma bind_ok {S A B} (m : run S A) (k : A -> run S B) s a s' :
  m s = (Ok a, s') -> bind m k s = k a s'.
Proof. unfold bind. intros ->. reflexivity. Qed.

Lemma bind_raise {S A B} (m : run S A) (k : A -> run S B) s e s' :
  m s = (Raise e, s') -> bind m k s = (Raise e, s').
Proof. unfold bind. intros ->. reflexivity. Qed.

Lemma get_u8_ok (cur : Cursor.t) (x : byte) (r : bytes) :
  rest cur = x :: r -> get_u8 cur = (Ok (Byte.to_N x), advance cur 1).
Proof.
  intros H. unfold get_u8, index.
  rewrite (skipn_cons_nth _ _ _ _ H). reflexivity.
Qed.

Lemma get_u8_end (cur : Cursor.t) :
  rest cur = [] -> get_u8 cur = (Raise IndexError, cur).
Proof.
  intros H. unfold get_u8, index.
  rewrite (skipn_nil_nth _ _ H). reflexivity.
Qed.

Lemma get_bytes_ok (cur : Cursor.t) (bs r : bytes) :
  rest cur = bs ++ r ->
  get_bytes (N.of_nat (length bs)) cur = (Ok bs, advance cur (length bs)).
Proof.
  intros H. unfold get_bytes, peek_bytes, slice. fold (rest cur).
  replace (c cur + N.of_nat (length bs) - c cur) with (N.of_nat (length bs)) by lia.
  rewrite Nat2N.id, H, firstn_app, firstn_all, Nat.sub_diag. simpl.
  rewrite app_nil_r. reflexivity.
Qed.

(** ** The variable-length integer *)

Lemma leb_combine_cons (g : N) (vl : list N) :
  g < 128 -> leb_combine (g :: vl) = 128 * leb_combine vl + g.
Proof.
  intros Hg. unfold leb_combine. simpl rev. rewrite fold_left_app. simpl.
  apply shift7_or. exact Hg.
Qed.

Lemma leb_nonempty enc n : Wire.leb enc n -> enc <> [].
Proof. intros H; inversion H; discriminate. Qed.

Lemma leb_combine_groups enc n :
  Wire.leb enc n -> leb_combine (map low7 enc) = n.
Proof.
  induction 1 as [x Hx | x more n Hx Hmore IH]; simpl map.
  - unfold low7. rewrite byte_low7, N.mod_small by assumption. reflexivity.
  - rewrite leb_combine_cons.
    + rewrite IH. unfold low7. rewrite byte_low7.
      pose proof (byte_lt_256 x) as Hlt.
      assert (Byte.to_N x mod 128 = Byte.to_N x - 128); [| lia].
      symmetry. apply N.mod_unique with 1; lia.
    + unfold low7. rewrite byte_low7. apply N.mod_lt. discriminate.
Qed.

Lemma leb_while_ok enc n :
  Wire.leb enc n ->
  forall x tl fuel vl cur r,
    enc = x :: tl -> rest cur = tl ++ r -> (length tl <= fuel)%nat ->
    exists bv vl',
      leb_while fuel (Byte.to_N x) vl cur
      = (Ok (bv, vl'), advance cur (length tl))
      /\ vl' ++ [bv] = vl ++ map low7 enc.
Proof.
  induction 1 as [x0 Hx | x0 more n Hx Hmore IH];
    intros x tl fuel vl cur r Heq Hrest Hfuel; injection Heq as Hx0 Htl; subst.
  - exists (Byte.to_N x), vl. split.
    + replace (advance cur (@length byte [])) with cur by (symmetry; apply advance_0).
      destruct fuel; cbn [leb_while]; rewrite byte_high_bit;
        (replace (Byte.to_N x <? 128) with true by (symmetry; apply N.ltb_lt; exact Hx));
        reflexivity.
    + simpl. unfold low7. rewrite byte_low7, N.mod_small by assumption. reflexivity.
  - destruct tl as [| y tl']; [exfalso; eapply leb_nonempty; eauto |].
    destruct fuel as [| fuel]; [simpl in Hfuel; lia |].
    simpl in Hrest.
    destruct (IH y tl' fuel (vl ++ [N.land (Byte.to_N x) 127]) (advance cur 1) r eq_refl)
      as (bv & vl' & Hrun & Hvl).
    + change (y :: tl' ++ r) with ([y] ++ tl' ++ r) in Hrest.
      apply (rest_advance cur [y]) in Hrest. exact Hrest.
    + simpl in Hfuel. lia.
    + exists bv, vl'. split.
      * cbn [leb_while]. rewrite byte_high_bit.
        replace (Byte.to_N x <? 128) with false
          by (symmetry; apply N.ltb_ge; exact Hx).
        cbn [negb].
        rewrite (bind_ok _ _ _ _ _ (get_u8_ok _ _ _ Hrest)).
        rewrite Hrun, advance_advance. reflexivity.
      * rewrite Hvl, <- app_assoc. reflexivity.
Qed.

Lemma get_leb_parses : parses get_leb Wire.leb.
Proof.
  intros cur bs v r Hleb Hrest.
  destruct bs as [| x tl]; [exfalso; eapply leb_nonempty; eauto |].
  unfold get_leb. simpl in Hrest.
  rewrite (bind_ok _ _ _ _ _ (get_u8_ok _ _ _ Hrest)).
  destruct (leb_while_ok _ _ Hleb x tl (length (b cur)) [] (advance cur 1) r eq_refl)
    as (bv & vl' & Hrun & Hvl).
  - change (x :: tl ++ r) with ([x] ++ tl ++ r) in Hrest.
    apply (rest_advance cur [x]) in Hrest. exact Hrest.
  - pose proof (rest_length cur) as Hlen. rewrite Hrest in Hlen.
    simpl in Hlen. rewrite length_app in Hlen. lia.
  - rewrite (bind_ok _ _ _ _ _ Hrun). cbn [fst snd].
    rewrite Hvl. cbn [app]. rewrite (leb_combine_groups _ _ Hleb).
    unfold ret. rewrite advance_advance. reflexivity.
Qed.

(** C1: [get_leb] decodes little-endian-group LEB128.  On a cursor that
    stands before a valid variable-length integer (each byte gives its low
    7 bits, a set high bit says that more bytes follow, least significant
    group first) it returns the encoded number and moves the cursor past
    exactly the bytes of the encoding.  In particular 00 decodes to 0,
    7F to 127, 80 01 to 128 and 96 01 to 150. *)
Theorem get_leb_decodes :
  (forall cur enc n r,
      Wire.leb enc n -> rest cur = enc ++ r ->
      get_leb cur = (Ok n, advance cur (length enc)))
  /\ (forall rk, get_leb (Cursor.mk [x00] 0 rk) = (Ok 0, Cursor.mk [x00] 1 rk))
  /\ (forall rk, get_leb (Cursor.mk [x7f] 0 rk) = (Ok 127, Cursor.mk [x7f] 1 rk))
  /\ (forall rk, get_leb (Cursor.mk [x80; x01] 0 rk)
                 = (Ok 128, Cursor.mk [x80; x01] 2 rk))
  /\ (forall rk, get_leb (Cursor.mk [x96; x01] 0 rk)
                 = (Ok 150, Cursor.mk [x96; x01] 2 rk)).
Proof.
  split; [exact get_leb_parses |].
  repeat split; intros []; reflexivity.
Qed.

Lemma get_leb_decodes_witness :
  get_leb (Cursor.mk [xaa; xe5; x8e; x26; x07] 1 false)
  = (Ok 624485, Cursor.mk [xaa; xe5; x8e; x26; x07] 4 false).
Proof.
  apply (proj1 get_leb_decodes
           (Cursor.mk [xaa; xe5; x8e; x26; x07] 1 false)
           [xe5; x8e; x26] 624485 [x07]).
  - apply (Wire.leb_more xe5 [x8e; x26] 4878); [vm_compute; discriminate |].
    apply (Wire.leb_more x8e [x26] 38); [vm_compute; discriminate |].
    apply (Wire.leb_last x26). reflexivity.
  - reflexivity.
Defined.
(** ** Reads at the end of the buffer *)

Lemma length_slice (bs : bytes) (lo hi : N) :
  length (slice bs lo hi)
  = Nat.min (N.to_nat (hi - lo)) (length bs - N.to_nat lo).
Proof. unfold slice. rewrite length_firstn, length_skipn. reflexivity. Qed.

Lemma get_u8_past_end (cur : Cursor.t) :
  N.of_nat (length (b cur)) <= c cur -> get_u8 cur = (Raise IndexError, cur).
Proof.
  intros H. apply get_u8_end. unfold rest. apply skipn_all2. lia.
Qed.

Lemma unpack_short (width : nat) (bs : bytes) :
  (length bs < width)%nat -> unpack width bs = Raise StructError.
Proof.
  intros H. unfold unpack.
  destruct (Nat.eqb_spec (length bs) width); [lia | reflexivity].
Qed.

Lemma when_rkyv_align_run (cur : Cursor.t) :
  when_rkyv_align cur = (Ok tt, set_c cur (read_pos cur)).
Proof.
  unfold when_rkyv_align, read_pos, align, align_up.
  destruct (rkyv cur); [| rewrite set_c_same; reflexivity].
  cbn [N.eqb]. destruct (c cur mod 4 =? 0); cbn [negb];
    [rewrite set_c_same |]; reflexivity.
Qed.

Lemma get_fixed_past_end (width : nat) (cur : Cursor.t) :
  (0 < width)%nat ->
  N.of_nat (length (b cur)) < read_pos cur + N.of_nat width ->
  (when_rkyv_align ;;;
   bs <- get_bytes (N.of_nat width) ;;
   fun cur' => (unpack width bs, cur')) cur
  = (Raise StructError, set_c cur (read_pos cur + N.of_nat width)).
Proof.
  intros Hw H.
  rewrite (bind_ok _ _ _ _ _ (when_rkyv_align_run cur)).
  unfold bind, get_bytes, peek_bytes. cbn [b c set_c].
  rewrite unpack_short; [reflexivity |].
  rewrite length_slice. lia.
Qed.

(** C3, as the code has it: a [u8] read at or past the end of the buffer
    raises [IndexError], and a [u16] or [u32] read with fewer than 2 or 4
    bytes left at its (aligned) position raises [struct.error]; the reads
    of raw bytes check no bound: [get_bytes n] always returns, with the
    bytes that are left when these are fewer than [n], and moves the
    position by [n] all the same; [get_byte_array] fails only when the
    read of its length does. *)
Theorem reads_past_the_end :
  forall cur,
    (N.of_nat (length (b cur)) <= c cur ->
     get_u8 cur = (Raise IndexError, cur))
    /\ (N.of_nat (length (b cur)) < read_pos cur + 2 ->
        get_u16 cur = (Raise StructError, set_c cur (read_pos cur + 2)))
    /\ (N.of_nat (length (b cur)) < read_pos cur + 4 ->
        get_u32 cur = (Raise StructError, set_c cur (read_pos cur + 4)))
    /\ (forall n,
           get_bytes n cur
           = (Ok (slice (b cur) (c cur) (c cur + n)), set_c cur (c cur + n))
           /\ length (slice (b cur) (c cur) (c cur + n))
              = Nat.min (N.to_nat n) (length (b cur) - N.to_nat (c cur)))
    /\ (forall l cur1,
           get_leb cur = (Ok l, cur1) ->
           get_byte_array cur
           = (Ok (slice (b cur1) (c cur1) (c cur1 + l)), set_c cur1 (c cur1 + l))).
Proof.
  intros cur. split; [apply get_u8_past_end |].
  split; [apply (get_fixed_past_end 2); lia |].
  split; [apply (get_fixed_past_end 4); lia |].
  split.
  - intros n. split; [reflexivity |].
    rewrite length_slice. f_equal. lia.
  - intros l cur1 Hleb. unfold get_byte_array.
    rewrite (bind_ok _ _ _ _ _ Hleb). reflexivity.
Qed.

Lemma reads_past_the_end_witness :
  get_u8 (Cursor.mk [x01; x02] 2 false)
  = (Raise IndexError, Cursor.mk [x01; x02] 2 false)
  /\ get_u16 (Cursor.mk [x01; x02; x03; x04; x05] 1 true)
     = (Raise StructError, Cursor.mk [x01; x02; x03; x04; x05] 6 true)
  /\ get_u32 (Cursor.mk [x01; x02; x03; x04; x05] 2 false)
     = (Raise StructError, Cursor.mk [x01; x02; x03; x04; x05] 6 false)
  /\ get_byte_array (Cursor.mk [x05; x0a; x0b] 0 false)
     = (Ok [x0a; x0b], Cursor.mk [x05; x0a; x0b] 6 false).
Proof.
  split; [| split; [| split]].
  - apply (proj1 (reads_past_the_end (Cursor.mk [x01; x02] 2 false))).
    vm_compute; discriminate.
  - apply (proj1 (proj2 (reads_past_the_end
                           (Cursor.mk [x01; x02; x03; x04; x05] 1 true)))).
    reflexivity.
  - apply (proj1 (proj2 (proj2 (reads_past_the_end
                                  (Cursor.mk [x01; x02; x03; x04; x05] 2 false))))).
    reflexivity.
  - apply (proj2 (proj2 (proj2 (proj2 (reads_past_the_end
                                         (Cursor.mk [x05; x0a; x0b] 0 false)))))
             5 (Cursor.mk [x05; x0a; x0b] 1 false)).
    reflexivity.
Defined.

(** The claim C3 as it is worded fails for the raw-byte read: asked for 4
    bytes where 2 are left, [get_bytes] returns these 2. *)
Lemma get_bytes_returns_truncated :
  ~ (forall cur n,
        N.of_nat (length (b cur)) < c cur + n ->
        exists e, fst (get_bytes n cur) = Raise e).
Proof.
  intros H.
  destruct (H (Cursor.mk [x01; x02] 0 false) 4) as [e He].
  - reflexivity.
  - discriminate He.
Qed.

(** ** Bounded lists *)




(** ** Decoders read their formats *)

Lemma parses_on_all {A} (P : A -> Prop) (D : Cursor.M A) F :
  parses D F -> parses_on P D F.
Proof. intros H cur bs v r _. apply H. Qed.

Lemma advance_eq (cur : Cursor.t) (n m : nat) :
  n = m -> advance cur n = advance cur m.
Proof. intros ->. reflexivity. Qed.

Ltac step H HP HF Hrest :=
  let Hrest' := fresh "Hrest" in
  rewrite (bind_ok _ _ _ _ _ (H _ _ _ _ HP HF Hrest));
  pose proof (rest_advance _ _ _ Hrest) as Hrest'.

Ltac done_parsing :=
  unfold ret; repeat rewrite advance_advance;
  f_equal; apply advance_eq;
  repeat rewrite length_app; simpl length; lia.

Lemma get_bytes_parses (n : nat) : parses (get_bytes (N.of_nat n)) (Wire.raw n).
Proof.
  intros cur bs v r [-> Hlen] Hrest. subst n.
  apply (get_bytes_ok cur v r Hrest).
Qed.

Lemma pair_parses {A B} PA PB (DA : Cursor.M A) (DB : Cursor.M B) FA FB :
  parses_on PA DA FA -> parses_on PB DB FB ->
  parses_on (fun v => PA (fst v) /\ PB (snd v))
    (x <- DA ;; y <- DB ;; ret (x, y)) (Wire.pair FA FB).
Proof.
  intros HA HB cur bs [x y] r [HPa HPb] (b1 & b2 & -> & Ha & Hb) Hrest.
  cbn [fst snd] in *. rewrite <- app_assoc in Hrest.
  step HA HPa Ha Hrest. step HB HPb Hb Hrest0. done_parsing.
Qed.

Lemma for_range_parses {A} (P : A -> Prop) (D : Cursor.M A) F bs vs :
  parses_on P D F -> Wire.seq F bs vs -> Forall P vs ->
  forall cur r acc,
    rest cur = bs ++ r ->
    for_range (length vs) D acc cur = (Ok (acc ++ vs), advance cur (length bs)).
Proof.
  intros HD Hseq. induction Hseq as [| b1 b2 v vs Hv Hvs IH];
    intros HP cur r acc Hrest.
  - cbn [for_range length]. rewrite advance_0, app_nil_r. reflexivity.
  - inversion HP as [| ? ? HPv HPvs]; subst.
    cbn [for_range length]. rewrite <- app_assoc in Hrest.
    step HD HPv Hv Hrest.
    rewrite (IH HPvs _ r _ Hrest0), <- app_assoc.
    cbn [app]. done_parsing.
Qed.

Lemma get_array_parses {A} (P : A -> Prop) (D : Cursor.M A) F :
  parses_on P D F -> parses_on (Forall P) (get_array D) (Wire.counted F).
Proof.
  intros HD cur bs vs r HP (b1 & b2 & -> & Hn & Hseq) Hrest.
  unfold get_array. rewrite <- app_assoc in Hrest.
  step (parses_on_all (fun _ => True) _ _ get_leb_parses) I Hn Hrest.
  rewrite Nat2N.id, (for_range_parses P D F b2 vs HD Hseq HP _ r [] Hrest0).
  cbn [app]. done_parsing.
Qed.

Lemma get_prior_parses {A} (P : A -> Prop) (D : Cursor.M A) F :
  parses_on P D F ->
  parses_on (fun p => Forall P (values p)) (get_prior D) (Wire.bounded F).
Proof.
  intros HD cur bs [vs] r HP (Hle & b1 & b2 & -> & Hn & Hseq) Hrest.
  cbn [values] in *.
  unfold get_prior, Prior_init. rewrite <- app_assoc in Hrest.
  step (parses_on_all (fun _ => True) _ _ get_leb_parses) I Hn Hrest.
  replace (2 <? N.of_nat (length vs)) with false
    by (symmetry; apply N.ltb_ge; lia).
  rewrite Nat2N.id.
  rewrite (bind_ok _ _ _ _ _
             (for_range_parses P D F b2 vs HD Hseq HP _ r [] Hrest0)).
  cbn [app]. done_parsing.
Qed.

Lemma get_byte_array_parses : parses get_byte_array Wire.blob.
Proof.
  intros cur bs v r (b1 & -> & Hn) Hrest.
  unfold get_byte_array. rewrite <- app_assoc in Hrest.
  step (parses_on_all (fun _ => True) _ _ get_leb_parses) I Hn Hrest.
  rewrite (get_bytes_ok _ v r Hrest0). done_parsing.
Qed.

Lemma byte_to_N_0 (x : byte) : Byte.to_N x = 0 -> x = x00.
Proof. destruct x; (reflexivity || discriminate). Qed.

Lemma get_option_parses {A} (P : A -> Prop) (D : Cursor.M A) F :
  parses_on P D F ->
  parses_on (fun o => match o with Some v => P v | None => True end)
    (get_option D) (Wire.opt F).
Proof.
  intros HD cur bs o r HP Hopt Hrest.
  unfold get_option, get_bool.
  destruct Hopt as [| x bs v Hx Hv]; simpl in Hrest.
  - unfold bind at 1. unfold bind at 1.
    rewrite (get_u8_ok _ _ _ Hrest). reflexivity.
  - unfold bind at 1. unfold bind at 1.
    rewrite (get_u8_ok _ _ _ Hrest). unfold ret at 1.
    destruct (N.eqb_spec (Byte.to_N x) 0) as [H0 | H0];
      [exfalso; apply Hx, byte_to_N_0, H0 |].
    cbn [negb].
    change (x :: bs ++ r) with ([x] ++ bs ++ r) in Hrest.
    apply rest_advance in Hrest.
    step HD HP Hv Hrest. done_parsing.
Qed.
Lemma parses_of_on {A} (P : A -> Prop) (D : Cursor.M A) F :
  (forall v, P v) -> parses_on P D F -> parses D F.
Proof. intros HP H cur bs v r. apply H, HP. Qed.

Lemma leb_on : parses_on (fun _ => True) get_leb Wire.leb.
Proof. apply parses_on_all, get_leb_parses. Qed.

Lemma raw_on (n : nat) :
  parses_on (fun _ => True) (get_bytes (N.of_nat n)) (Wire.raw n).
Proof. apply parses_on_all, get_bytes_parses. Qed.

Lemma blob_on : parses_on (fun _ => True) get_byte_array Wire.blob.
Proof. apply parses_on_all, get_byte_array_parses. Qed.

Lemma decode_location_parses : parses decode_location Wire.location.
Proof.
  apply (parses_of_on (fun v => True /\ True)); [intros; split; exact I |].
  exact (pair_parses _ _ _ _ _ _ leb_on leb_on).
Qed.

Lemma decode_address_parses : parses decode_address Wire.address.
Proof.
  apply (parses_of_on (fun v => True /\ True)); [intros; split; exact I |].
  exact (pair_parses _ _ _ _ _ _ (raw_on 32) leb_on).
Qed.


Lemma priority_value_parses (tag : N) :
  parses (if tag =? 1 then (v <- get_leb ;; ret (Some v)) else ret None)
    (Wire.priority_value tag).
Proof.
  intros cur bs v r Hpv Hrest. unfold Wire.priority_value in Hpv.
  destruct (tag =? 1).
  - destruct Hpv as (n & -> & Hn). step leb_on I Hn Hrest. reflexivity.
  - destruct Hpv as [-> ->]. unfold ret. rewrite advance_0. reflexivity.
Qed.

Lemma CommandData_parses :
  parses_on no_updates CommandData.init Wire.command.
Proof.
  intros cur bs [id pr pv pol data upd] r Hno
         (b1 & b2 & b3 & b4 & b5 & b6 & -> & H1 & H2 & H3 & H4 & H5 & H6) Hrest.
  unfold no_updates in Hno. cbn in Hno, H1, H2, H3, H4, H5, H6. subst upd.
  unfold CommandData.init.
  repeat rewrite <- app_assoc in Hrest.
  step (raw_on 32) I H1 Hrest.
  step leb_on I H2 Hrest0.
  step (parses_on_all (fun _ => True) _ _ (priority_value_parses pr)) I H3 Hrest1.
  step (get_option_parses _ _ _ blob_on)
       (match pol as o return match o with Some _ => True | None => True end
        with Some _ => I | None => I end) H4 Hrest2.
  step blob_on I H5 Hrest3.
  step (get_array_parses (fun _ => False) CommandData.decode_update Wire.update
          (fun cur bs v r (H : False) => match H with end))
       (Forall_nil (fun _ : CommandData.update => False)) H6 Hrest4.
  done_parsing.
Qed.
Lemma Forall_True {A} (l : list A) : Forall (fun _ => True) l.
Proof. induction l; constructor; auto. Qed.


Lemma bytes_eqb_eq (x y : bytes) : bytes_eqb x y = true <-> x = y.
Proof.
  revert y. induction x as [| u x IH]; intros [| v y]; simpl;
    try (split; (reflexivity || discriminate)).
  rewrite andb_true_iff, IH. split.
  - intros [Huv ->]. f_equal.
    destruct (Byte.byte_dec_bl _ _ Huv). reflexivity.
  - intros H. injection H as -> ->. split; [| reflexivity].
    apply Byte.byte_dec_lb. reflexivity.
Qed.

Lemma unpack_from_I_ok (bs : bytes) (o n : N) :
  unpack_from_I bs o = Ok n ->
  length (slice bs o (o + 4)) = 4%nat /\ n = le_int (slice bs o (o + 4)).
Proof.
  unfold unpack_from_I.
  destruct (Nat.eqb_spec (length (slice bs o (o + 4))) 4) as [H | H];
    [| discriminate].
  intros E. injection E as <-. split; [exact H | reflexivity].
Qed.

Lemma Segment_read_ok (bs : bytes) (o : N) (s : Segment.t) :
  Segment.read bs o = Ok s ->
  slice bs (o + DATA_OFFSET) (o + DATA_OFFSET + 4) = SEGMENT_HEADER_MAGIC
  /\ unpack_from_I bs (o + DATA_OFFSET + 4) = Ok (Segment.size s)
  /\ Segment.offset s = o
  /\ Segment.data s
     = slice bs (o + DATA_OFFSET + 8) (o + DATA_OFFSET + 8 + Segment.size s)
  /\ exists p cur',
      Segment.decode_payload (Cursor.init (Segment.data s) false) = (Ok p, cur')
      /\ Segment.prior s = Segment.p_prior p
      /\ Segment.parents s = Segment.p_parents p
      /\ Segment.policy s = Segment.p_policy p
      /\ Segment.facts s = Segment.p_facts p
      /\ Segment.type s
         = Segment.classify (length (values (Segment.p_parents p))).
Proof.
  unfold Segment.read.
  destruct (bytes_eqb _ SEGMENT_HEADER_MAGIC) eqn:Hmagic; [| discriminate].
  apply bytes_eqb_eq in Hmagic. cbn [negb].
  destruct (unpack_from_I bs (o + DATA_OFFSET + 4)) as [size | |] eqn:Hsize;
    try discriminate.
  unfold Segment.decode_data.
  destruct (Segment.decode_payload _) as [[p | |] cur'] eqn:Hp;
    cbn [fst]; try discriminate.
  intros E. injection E as <-. cbn.
  repeat split; try assumption; try reflexivity.
  exists p, cur'. repeat split; assumption.
Qed.
(** ** Segments *)






(** ** What a successful run went through *)

Lemma bind_inv {S A B} (m : run S A) (k : A -> run S B) s v s' :
  bind m k s = (Ok v, s') ->
  exists a s1, m s = (Ok a, s1) /\ k a s1 = (Ok v, s').
Proof.
  unfold bind. destruct (m s) as [[a | e |] s1]; try discriminate.
  intros H. exists a, s1. split; [reflexivity | exact H].
Qed.

Lemma ret_inv {S A} (a v : A) (s s' : S) :
  ret a s = (Ok v, s') -> a = v /\ s = s'.
Proof. unfold ret. intros H. injection H as -> ->. split; reflexivity. Qed.

Lemma for_range_length {A} (D : Cursor.M A) (n : nat) :
  forall acc cur vs cur',
    for_range n D acc cur = (Ok vs, cur') ->
    length vs = (length acc + n)%nat.
Proof.
  induction n as [| n IH]; intros acc cur vs cur' H; cbn [for_range] in H.
  - apply ret_inv in H. destruct H as [<- _]. lia.
  - apply bind_inv in H. destruct H as (a & s1 & _ & H).
    apply IH in H. rewrite H, length_app. simpl. lia.
Qed.

Lemma get_prior_length {A} (D : Cursor.M A) cur p cur' :
  get_prior D cur = (Ok p, cur') -> (length (values p) <= 2)%nat.
Proof.
  unfold get_prior, Prior_init. intros H.
  apply bind_inv in H. destruct H as (tag & s1 & _ & H).
  destruct (N.ltb_spec 2 tag) as [Htag | Htag]; [discriminate H |].
  apply bind_inv in H. destruct H as (vs & s2 & Hvs & H).
  apply ret_inv in H. destruct H as [<- _]. cbn [values].
  apply for_range_length in Hvs. simpl in Hvs. lia.
Qed.

Lemma decode_payload_parents cur p cur' :
  Segment.decode_payload cur = (Ok p, cur') ->
  (length (values (Segment.p_parents p)) <= 2)%nat.
Proof.
  unfold Segment.decode_payload. intros H.
  apply bind_inv in H. destruct H as (off & s1 & _ & H).
  apply bind_inv in H. destruct H as (pri & s2 & _ & H).
  apply bind_inv in H. destruct H as (par & s3 & Hpar & H).
  apply bind_inv in H. destruct H as (pol & s4 & _ & H).
  apply bind_inv in H. destruct H as (facts & s5 & _ & H).
  apply bind_inv in H. destruct H as (cmds & s6 & _ & H).
  apply bind_inv in H. destruct H as (mc & s7 & _ & H).
  apply bind_inv in H. destruct H as (sl & s8 & _ & H).
  apply ret_inv in H. destruct H as [<- _]. cbn [Segment.p_parents].
  apply (get_prior_length _ _ _ _ Hpar).
Qed.

(** C7: the kind of a decoded segment is a function of the number of its
    parents: none gives 'init', one gives 'basic', two give 'merge', and
    a decoded segment has no other number of parents. *)
Theorem Segment_kind :
  forall bs o s,
    Segment.read bs o = Ok s ->
    Segment.type s = Segment.classify (length (values (Segment.parents s)))
    /\ ((length (values (Segment.parents s)) = 0%nat
         /\ Segment.type s = Some "init"%string)
        \/ (length (values (Segment.parents s)) = 1%nat
            /\ Segment.type s = Some "basic"%string)
        \/ (length (values (Segment.parents s)) = 2%nat
            /\ Segment.type s = Some "merge"%string)).
Proof.
  intros bs o s Hs.
  destruct (Segment_read_ok bs o s Hs)
    as (_ & _ & _ & _ & p & cur' & Hp & _ & Hpar & _ & _ & Htype).
  apply decode_payload_parents in Hp. rewrite <- Hpar in Hp, Htype.
  split; [exact Htype |]. rewrite Htype.
  destruct (length (values (Segment.parents s))) as [| [| [| n]]];
    [left | right; left | right; right | lia]; split; reflexivity.
Qed.

Lemma Segment_kind_witness :
  Segment.read sample_merge_dump 0 = Ok sample_merge_segment
  /\ Segment.type sample_merge_segment = Some "merge"%string
  /\ length (values (Segment.parents sample_merge_segment)) = 2%nat.
Proof.
  split; [reflexivity |].
  destruct (proj2 (Segment_kind sample_merge_dump 0 sample_merge_segment
                     eq_refl))
    as [[H _] | [[H _] | [Hlen Htype]]];
    [discriminate H | discriminate H | split; assumption].
Defined.

(** ** Commands *)

(** C8: a decoded command has a [priority_value] exactly when its
    [priority] tag is 1.  With the tag 1 the value is the varint that
    follows the tag, and the presence flag of [policy] is read after it;
    with any other tag nothing is read between the tag and the presence
    flag of [policy]. *)
Theorem priority_value_iff_basic :
  forall cur cmd cur',
    CommandData.init cur = (Ok cmd, cur') ->
    (CommandData.priority_value cmd <> None <-> CommandData.priority cmd = 1)
    /\ exists cur1,
        get_leb (set_c cur (c cur + 32)) = (Ok (CommandData.priority cmd), cur1)
        /\ ((CommandData.priority cmd = 1
             /\ exists v cur2,
                 get_leb cur1 = (Ok v, cur2)
                 /\ CommandData.priority_value cmd = Some v
                 /\ fst (get_option get_byte_array cur2)
                    = Ok (CommandData.policy cmd))
            \/ (CommandData.priority cmd <> 1
                /\ CommandData.priority_value cmd = None
                /\ fst (get_option get_byte_array cur1)
                   = Ok (CommandData.policy cmd))).
Proof.
  intros cur cmd cur' H. unfold CommandData.init in H.
  apply bind_inv in H. destruct H as (id & s1 & Hid & H).
  unfold get_bytes in Hid. injection Hid as _ <-.
  apply bind_inv in H. destruct H as (pr & s2 & Hpr & H).
  apply bind_inv in H. destruct H as (pv & s3 & Hpv & H).
  apply bind_inv in H. destruct H as (pol & s4 & Hpol & H).
  apply bind_inv in H. destruct H as (data & s5 & _ & H).
  apply bind_inv in H. destruct H as (upd & s6 & _ & H).
  apply ret_inv in H. destruct H as [<- _].
  cbn [CommandData.priority CommandData.priority_value CommandData.policy].
  destruct (N.eqb_spec pr 1) as [Hpr1 | Hpr1].
  - apply bind_inv in Hpv. destruct Hpv as (v & s3' & Hv & Hpv).
    apply ret_inv in Hpv. destruct Hpv as [<- <-].
    split; [split; [intros _; exact Hpr1 | intros _; discriminate] |].
    exists s2. split; [exact Hpr |]. left. split; [exact Hpr1 |].
    exists v, s3'. rewrite Hpol. repeat split; assumption.
  - apply ret_inv in Hpv. destruct Hpv as [<- <-].
    split; [split; [intros Hn; exfalso; apply Hn; reflexivity
                   | intros Hn; contradiction] |].
    exists s2. split; [exact Hpr |]. right.
    rewrite Hpol. repeat split; assumption.
Qed.

Lemma priority_value_iff_basic_witness :
  (CommandData.init (Cursor.init sample_basic_command false)
   = (Ok sample_basic_fields, Cursor.mk sample_basic_command 39 false)
   /\ (CommandData.priority_value sample_basic_fields <> None
       <-> CommandData.priority sample_basic_fields = 1))
  /\ (CommandData.init (Cursor.init sample_other_command false)
      = (Ok sample_other_fields, Cursor.mk sample_other_command 38 false)
      /\ (CommandData.priority_value sample_other_fields <> None
          <-> CommandData.priority sample_other_fields = 1)).
Proof.
  split; (split; [reflexivity |]).
  - exact (proj1 (priority_value_iff_basic
                    (Cursor.init sample_basic_command false)
                    sample_basic_fields
                    (Cursor.mk sample_basic_command 39 false) eq_refl)).
  - exact (proj1 (priority_value_iff_basic
                    (Cursor.init sample_other_command false)
                    sample_other_fields
                    (Cursor.mk sample_other_command 38 false) eq_refl)).
Defined.

Lemma updates_raise cur n cur1 :
  get_leb cur = (Ok n, cur1) -> 1 <= n ->
  get_array CommandData.decode_update cur
  = (Raise (AttributeError "get_string"), cur1).
Proof.
  intros Hleb Hn. unfold get_array. rewrite (bind_ok _ _ _ _ _ Hleb).
  destruct (N.to_nat n) as [| k] eqn:Hk; [lia |]. reflexivity.
Qed.

(** C2: where the claim says that the updates of a command are decoded,
    the code raises.  Whenever the count of [updates] is at least 1, the
    decoding of the first element raises [AttributeError] right after the
    count, for [Cursor] has no method [get_string]; the command
    [sample_command], which has one update, fails so at the position 36. *)
Theorem CommandData_update_raises :
  (forall cur n cur1,
      get_leb cur = (Ok n, cur1) -> 1 <= n ->
      get_array CommandData.decode_update cur
      = (Raise (AttributeError "get_string"), cur1))
  /\ CommandData.init (Cursor.init sample_command false)
     = (Raise (AttributeError "get_string"), Cursor.mk sample_command 36 false).
Proof.
  split.
  - intros cur n cur1. apply updates_raise.
  - reflexivity.
Qed.

Lemma CommandData_update_raises_witness :
  get_array CommandData.decode_update (Cursor.mk sample_command 35 false)
  = (Raise (AttributeError "get_string"), Cursor.mk sample_command 36 false).
Proof.
  apply (proj1 CommandData_update_raises
           (Cursor.mk sample_command 35 false) 1
           (Cursor.mk sample_command 36 false)).
  - reflexivity.
  - vm_compute; discriminate.
Defined.

(** ** The header *)

Lemma get_u8_inv cur v cur' :
  get_u8 cur = (Ok v, cur') ->
  index (b cur) (c cur) = Ok v /\ cur' = set_c cur (c cur + 1).
Proof.
  unfold get_u8. destruct (index (b cur) (c cur)) as [x | e |];
    try discriminate.
  intros H. injection H as -> <-. split; reflexivity.
Qed.

Lemma get_u32_inv cur v cur' :
  get_u32 cur = (Ok v, cur') ->
  unpack_from_I (b cur) (read_pos cur) = Ok v
  /\ cur' = set_c cur (read_pos cur + 4).
Proof.
  unfold get_u32. rewrite (bind_ok _ _ _ _ _ (when_rkyv_align_run cur)).
  unfold bind, get_bytes, peek_bytes, unpack, unpack_from_I.
  cbn [b c set_c rkyv].
  destruct (Nat.eqb _ 4); [| discriminate].
  intros H. injection H as <- <-. split; reflexivity.
Qed.

Lemma align_4_run cur :
  align 4 cur = (Ok tt, set_c cur (align_up 4 (c cur))).
Proof.
  unfold align, align_up. cbn [N.eqb].
  destruct (c cur mod 4 =? 0); cbn [negb]; [rewrite set_c_same |]; reflexivity.
Qed.

Lemma get_option_inv {A} (D : Cursor.M A) cur o cur' :
  get_option D cur = (Ok o, cur') ->
  exists flag,
    index (b cur) (c cur) = Ok flag
    /\ ((flag = 0 /\ o = None /\ cur' = set_c cur (c cur + 1))
        \/ (flag <> 0
            /\ exists v, o = Some v /\ D (set_c cur (c cur + 1)) = (Ok v, cur'))).
Proof.
  unfold get_option, get_bool. intros H.
  apply bind_inv in H. destruct H as (ex & s1 & Hex & H).
  apply bind_inv in Hex. destruct Hex as (flag & s0 & Hflag & Hex).
  apply get_u8_inv in Hflag. destruct Hflag as [Hflag ->].
  apply ret_inv in Hex. destruct Hex as [<- <-].
  exists flag. split; [exact Hflag |].
  destruct (N.eqb_spec flag 0) as [H0 | H0]; cbn [negb] in H.
  - left. apply ret_inv in H. destruct H as [<- <-]. repeat split. exact H0.
  - right. split; [exact H0 |].
    apply bind_inv in H. destruct H as (v & s2 & Hv & H).
    apply ret_inv in H. destruct H as [<- <-].
    exists v. split; [reflexivity | exact Hv].
Qed.

Lemma Header_bad_magic (bs : bytes) :
  firstn 4 bs <> STORAGE_HEADER_MAGIC ->
  Header.init bs = (Raise (Exception "bad header magic"), Cursor.mk bs 4 true).
Proof.
  intros H. unfold Header.init, Header.decode.
  unfold bind at 1. unfold get_bytes, peek_bytes, Cursor.init, set_c.
  cbn [b c rkyv]. change (slice bs 0 (0 + 4)) with (firstn 4 bs).
  destruct (bytes_eqb (firstn 4 bs) STORAGE_HEADER_MAGIC) eqn:Hmagic.
  - apply bytes_eqb_eq in Hmagic. contradiction.
  - reflexivity.
Qed.

Lemma Header_fields (bs : bytes) (h : Header.t) (cur' : Cursor.t) :
  Header.init bs = (Ok h, cur') ->
  firstn 4 bs = STORAGE_HEADER_MAGIC
  /\ unpack_from_I bs 4 = Ok (Header.epoch h)
  /\ exists gflag hflag,
      index bs 8 = Ok gflag
      /\ (gflag = 0 -> Header.graph_id h = None)
      /\ (gflag <> 0 -> Header.graph_id h = Some (slice bs 9 41))
      /\ index bs (head_flag_pos gflag) = Ok hflag
      /\ (hflag = 0 ->
          Header.head h = None
          /\ unpack_from_I bs (head_flag_pos gflag + 4)
             = Ok (Header.stored_bytes h)
          /\ cur' = Cursor.mk bs (head_flag_pos gflag + 8) true)
      /\ (hflag <> 0 ->
          exists h0 h1,
            Header.head h = Some (h0, h1)
            /\ unpack_from_I bs (head_flag_pos gflag + 4) = Ok h0
            /\ unpack_from_I bs (head_flag_pos gflag + 8) = Ok h1
            /\ unpack_from_I bs (head_flag_pos gflag + 12)
               = Ok (Header.stored_bytes h)
            /\ cur' = Cursor.mk bs (head_flag_pos gflag + 16) true).
Proof.
  unfold Header.init, Header.decode. intros H.
  apply bind_inv in H. destruct H as (magic & s0 & Hmagic & H).
  unfold get_bytes, peek_bytes, Cursor.init, set_c in Hmagic.
  cbn [b c rkyv] in Hmagic. injection Hmagic as <- <-.
  change (slice bs 0 4) with (firstn 4 bs) in H.
  destruct (bytes_eqb (firstn 4 bs) STORAGE_HEADER_MAGIC) eqn:Hm;
    cbn [negb] in H; [| unfold raise in H; discriminate H].
  apply bytes_eqb_eq in Hm. split; [exact Hm |].
  change (0 + 4) with 4 in H.
  apply bind_inv in H. destruct H as (epoch & s1 & Hepoch & H).
  apply get_u32_inv in Hepoch. destruct Hepoch as [Hepoch ->].
  change (read_pos (Cursor.mk bs 4 true)) with 4 in Hepoch |- *.
  cbn [b] in Hepoch. unfold set_c in H. cbn [b c rkyv] in H.
  change (4 + 4) with 8 in H.
  apply bind_inv in H. destruct H as (gid & s2 & Hgid & H).
  apply get_option_inv in Hgid. destruct Hgid as (gflag & Hgflag & Hgid).
  cbn [b c] in Hgflag.
  apply bind_inv in H. destruct H as ([] & s3 & Halign & H).
  rewrite align_4_run in Halign. injection Halign as <-.
  apply bind_inv in H. destruct H as (head & s4 & Hhead & H).
  apply get_option_inv in Hhead. destruct Hhead as (hflag & Hhflag & Hhead).
  apply bind_inv in H. destruct H as (stored & s5 & Hstored & H).
  apply get_u32_inv in Hstored. destruct Hstored as [Hstored ->].
  apply ret_inv in H. destruct H as [<- <-].
  cbn [Header.epoch Header.graph_id Header.head Header.stored_bytes].
  split; [exact Hepoch |].
  exists gflag, hflag. split; [exact Hgflag |].
  assert (Hs2 : s2 = Cursor.mk bs (if gflag =? 0 then 9 else 41) true
                /\ (gflag = 0 -> gid = None)
                /\ (gflag <> 0 -> gid = Some (slice bs 9 41))).
  { destruct Hgid as [(H0 & -> & ->) | (H0 & v & -> & Hv)].
    - subst gflag. repeat split. intros Hn. contradiction.
    - unfold get_bytes, peek_bytes, set_c in Hv. cbn [b c rkyv] in Hv.
      injection Hv as <- <-.
      destruct (N.eqb_spec gflag 0) as [| _]; [contradiction |].
      repeat split. intros Hz. contradiction. }
  destruct Hs2 as (-> & Hnone & Hsome).
  split; [exact Hnone |]. split; [exact Hsome |].
  assert (Hpos : align_up 4 (if gflag =? 0 then 9 else 41) = head_flag_pos gflag)
    by (unfold head_flag_pos; destruct (gflag =? 0); reflexivity).
  unfold set_c in Hhflag, Hhead, Hstored |- *.
  cbn [b c rkyv] in Hhflag, Hhead, Hstored |- *.
  rewrite Hpos in Hhflag, Hhead.
  split; [exact Hhflag |].
  assert (Hup : align_up 4 (head_flag_pos gflag + 1) = head_flag_pos gflag + 4)
    by (unfold head_flag_pos; destruct (gflag =? 0); reflexivity).
  split.
  - intros Hz. destruct Hhead as [(_ & -> & ->) | (Hnz & _)]; [| contradiction].
    unfold read_pos in Hstored |- *. cbn [b c rkyv] in Hstored |- *.
    rewrite Hup in Hstored |- *.
    repeat split; [exact Hstored |].
    f_equal. lia.
  - intros Hnz. destruct Hhead as [(Hz & _) | (_ & v & -> & Hv)]; [contradiction |].
    apply bind_inv in Hv. destruct Hv as (h0 & t1 & Hh0 & Hv).
    apply get_u32_inv in Hh0. destruct Hh0 as [Hh0 ->].
    apply bind_inv in Hv. destruct Hv as (h1 & t2 & Hh1 & Hv).
    apply get_u32_inv in Hh1. destruct Hh1 as [Hh1 ->].
    apply ret_inv in Hv. destruct Hv as [<- <-].
    unfold read_pos, set_c in Hh0, Hh1, Hstored |- *.
    cbn [b c rkyv] in Hh0, Hh1, Hstored |- *.
    rewrite Hup in Hh0, Hh1, Hstored |- *.
    assert (A1 : align_up 4 (head_flag_pos gflag + 4 + 4)
                 = head_flag_pos gflag + 8)
      by (unfold head_flag_pos; destruct (gflag =? 0); reflexivity).
    assert (A2 : align_up 4 (head_flag_pos gflag + 8 + 4)
                 = head_flag_pos gflag + 12)
      by (unfold head_flag_pos; destruct (gflag =? 0); reflexivity).
    rewrite A1 in Hh1, Hstored |- *. rewrite A2 in Hstored |- *.
    replace (head_flag_pos gflag + 12 + 4) with (head_flag_pos gflag + 16)
      by lia.
    exists h0, h1. repeat split; assumption.
Qed.
Lemma Header_good_magic (bs : bytes) :
  firstn 4 bs = STORAGE_HEADER_MAGIC ->
  Header.init bs
  = (epoch <- get_u32 ;;
     graph_id <- get_option (get_bytes 32) ;;
     align 4 ;;;
     head <- get_option (h0 <- get_u32 ;; h1 <- get_u32 ;; ret (h0, h1)) ;;
     stored_bytes <- get_u32 ;;
     ret (Header.mk epoch graph_id head stored_bytes)) (Cursor.mk bs 4 true).
Proof.
  intros H. unfold Header.init, Header.decode.
  unfold bind at 1. unfold get_bytes, peek_bytes, Cursor.init, set_c.
  cbn [b c rkyv]. change (slice bs 0 (0 + 4)) with (firstn 4 bs).
  apply bytes_eqb_eq in H. rewrite H. reflexivity.
Qed.

(** C9: [Header(b)] raises 'bad header magic' whenever the first 4 bytes
    of the buffer are not 1C 53 4F 00, with the cursor at 4: nothing but
    the magic was read.  On a matching magic it goes on from the position
    4 with, in this order and in word-aligned mode, epoch (the u32 at 4),
    graph_id (the flag at 8, then 32 bytes), an alignment to 4, head (the
    flag at 12 or 44, then two u32 at the next multiples of 4) and
    stored_bytes (the u32 at the next multiple of 4). *)
Theorem Header_magic_first :
  forall bs,
    (firstn 4 bs <> STORAGE_HEADER_MAGIC ->
     Header.init bs
     = (Raise (Exception "bad header magic"), Cursor.mk bs 4 true))
    /\ (firstn 4 bs = STORAGE_HEADER_MAGIC ->
        Header.init bs
        = (epoch <- get_u32 ;;
           graph_id <- get_option (get_bytes 32) ;;
           align 4 ;;;
           head <- get_option (h0 <- get_u32 ;; h1 <- get_u32 ;; ret (h0, h1)) ;;
           stored_bytes <- get_u32 ;;
           ret (Header.mk epoch graph_id head stored_bytes))
            (Cursor.mk bs 4 true))
    /\ (forall h cur',
           Header.init bs = (Ok h, cur') ->
           firstn 4 bs = STORAGE_HEADER_MAGIC
           /\ unpack_from_I bs 4 = Ok (Header.epoch h)
           /\ exists gflag hflag,
               index bs 8 = Ok gflag
               /\ (gflag = 0 -> Header.graph_id h = None)
               /\ (gflag <> 0 -> Header.graph_id h = Some (slice bs 9 41))
               /\ index bs (head_flag_pos gflag) = Ok hflag
               /\ (hflag = 0 ->
                   Header.head h = None
                   /\ unpack_from_I bs (head_flag_pos gflag + 4)
                      = Ok (Header.stored_bytes h)
                   /\ cur' = Cursor.mk bs (head_flag_pos gflag + 8) true)
               /\ (hflag <> 0 ->
                   exists h0 h1,
                     Header.head h = Some (h0, h1)
                     /\ unpack_from_I bs (head_flag_pos gflag + 4) = Ok h0
                     /\ unpack_from_I bs (head_flag_pos gflag + 8) = Ok h1
                     /\ unpack_from_I bs (head_flag_pos gflag + 12)
                        = Ok (Header.stored_bytes h)
                     /\ cur' = Cursor.mk bs (head_flag_pos gflag + 16) true)).
Proof.
  intros bs. split; [apply Header_bad_magic |].
  split; [apply Header_good_magic |].
  intros h cur'. apply Header_fields.
Qed.

Lemma Header_magic_first_witness :
  (Header.init sample_root_payload
   = (Raise (Exception "bad header magic"), Cursor.mk sample_root_payload 4 true))
  /\ (Header.init sample_header
      = (Ok sample_header_fields, Cursor.mk sample_header 28 true)
      /\ firstn 4 sample_header = STORAGE_HEADER_MAGIC
      /\ unpack_from_I sample_header 4 = Ok (Header.epoch sample_header_fields)).
Proof.
  split.
  - apply (proj1 (Header_magic_first sample_root_payload)).
    discriminate.
  - split; [reflexivity |].
    destruct (proj2 (proj2 (Header_magic_first sample_header))
                sample_header_fields (Cursor.mk sample_header 28 true) eq_refl)
      as (Hmagic & Hepoch & _).
    split; assumption.
Defined.

(** ** Code that always returns or raises *)

Lemma total_ret {S A} (a : A) : total (@ret S A a).
Proof. intros s. discriminate. Qed.

Lemma total_raise {S A} (e : exn) : total (@raise S A e).
Proof. intros s. discriminate. Qed.

Lemma total_bind {S A B} (m : run S A) (k : A -> run S B) :
  total m -> (forall a, total (k a)) -> total (bind m k).
Proof.
  intros Hm Hk s. unfold bind. specialize (Hm s).
  destruct (m s) as [[a | e |] s1]; cbn [fst] in *.
  - apply Hk.
  - discriminate.
  - contradiction.
Qed.

Lemma total_get_u8 : total get_u8.
Proof.
  intros cur. unfold get_u8, index.
  destruct (nth_error (b cur) (N.to_nat (c cur))); discriminate.
Qed.

Lemma total_get_bytes (n : N) : total (get_bytes n).
Proof. intros cur. discriminate. Qed.

Lemma total_align_4 : total (align 4).
Proof. intros cur. rewrite align_4_run. discriminate. Qed.

Lemma total_get_u32 : total get_u32.
Proof.
  unfold get_u32. apply total_bind.
  - intros cur. rewrite when_rkyv_align_run. discriminate.
  - intros _. apply total_bind; [apply total_get_bytes |].
    intros bs cur. unfold unpack. cbn [fst].
    destruct (Nat.eqb (length bs) 4); discriminate.
Qed.

Lemma total_get_option {A} (D : Cursor.M A) : total D -> total (get_option D).
Proof.
  intros HD. unfold get_option, get_bool.
  apply total_bind.
  - apply total_bind; [apply total_get_u8 | intros v; apply total_ret].
  - intros [|]; [| apply total_ret].
    apply total_bind; [exact HD | intros v; apply total_ret].
Qed.

Lemma total_Header_decode : total Header.decode.
Proof.
  unfold Header.decode. apply total_bind; [apply total_get_bytes |].
  intros magic. destruct (negb _); [apply total_raise |].
  apply total_bind; [apply total_get_u32 | intros epoch].
  apply total_bind; [apply total_get_option, total_get_bytes | intros gid].
  apply total_bind; [apply total_align_4 | intros _].
  apply total_bind.
  { apply total_get_option.
    apply total_bind; [apply total_get_u32 | intros h0].
    apply total_bind; [apply total_get_u32 | intros h1].
    apply total_ret. }
  intros head.
  apply total_bind; [apply total_get_u32 | intros stored].
  apply total_ret.
Qed.

(** ** The script *)

Lemma main_header_raises (bs : bytes) (e : exn) :
  fst (Header.init bs) = Raise e -> main bs = (Raise e, world0).
Proof.
  intros H. unfold main, script. unfold bind at 1. rewrite H. reflexivity.
Qed.

Lemma main_no_head (bs : bytes) (h : Header.t) :
  fst (Header.init bs) = Ok h -> Header.head h = None ->
  main bs = (Raise TypeError, world0).
Proof.
  intros H Hhead. unfold main, script. unfold bind at 1. rewrite H.
  unfold bind at 1. unfold head_0. rewrite Hhead. reflexivity.
Qed.

(** C10: a header without a head stops the script.  If the header is
    decoded and its head is [None], the script raises [TypeError] at
    [h.head[0]]; and whenever the presence flag of the head is the byte
    0, the script raises with the state it started from: no segment was
    decoded, [segments] is empty and [graph.dot] was not opened. *)
Theorem no_head_no_graph :
  forall bs,
    (forall h,
        fst (Header.init bs) = Ok h -> Header.head h = None ->
        main bs = (Raise TypeError, world0))
    /\ (forall gflag,
           index bs 8 = Ok gflag ->
           index bs (head_flag_pos gflag) = Ok 0 ->
           exists e, main bs = (Raise e, world0)
                     /\ calls world0 = [] /\ segments world0 = []
                     /\ dot world0 = None).
Proof.
  intros bs. split; [apply main_no_head |].
  intros gflag Hg Hh.
  destruct (Header.init bs) as [[h | e |] cur'] eqn:Hinit.
  - exists TypeError. split; [| repeat split].
    apply (main_no_head bs h); [rewrite Hinit; reflexivity |].
    destruct (Header_fields bs h cur' Hinit)
      as (_ & _ & gflag' & hflag & Hg' & _ & _ & Hh' & Hnone & _).
    rewrite Hg in Hg'. injection Hg' as <-.
    rewrite Hh in Hh'. injection Hh' as <-.
    apply Hnone. reflexivity.
  - exists e. split; [| repeat split].
    apply main_header_raises. rewrite Hinit. reflexivity.
  - exfalso. apply (total_Header_decode (Cursor.init bs true)).
    unfold Header.init in Hinit. rewrite Hinit. reflexivity.
Qed.

Lemma no_head_no_graph_witness :
  (fst (Header.init sample_headless) = Ok sample_headless_fields
   /\ main sample_headless = (Raise TypeError, world0))
  /\ exists e, main sample_headless = (Raise e, world0)
               /\ calls world0 = [] /\ segments world0 = []
               /\ dot world0 = None.
Proof.
  split.
  - split; [reflexivity |].
    apply (proj1 (no_head_no_graph sample_headless) sample_headless_fields);
      reflexivity.
  - apply (proj2 (no_head_no_graph sample_headless) 0); reflexivity.
Defined.
(** ** The decoders always return or raise *)

Lemma rest_cases (cur : Cursor.t) :
  rest cur = [] \/ exists x r, rest cur = x :: r.
Proof. destruct (rest cur) as [| x r]; [left | right; exists x, r]; reflexivity. Qed.

Lemma rest_advance_1 (cur : Cursor.t) (x : byte) (r : bytes) :
  rest cur = x :: r -> rest (advance cur 1) = r.
Proof. intros H. apply (rest_advance cur [x] r H). Qed.

Lemma leb_while_total (fuel : nat) :
  forall bv vl cur,
    (length (rest cur) < fuel)%nat ->
    fst (leb_while fuel bv vl cur) <> OutOfFuel.
Proof.
  induction fuel as [| fuel IH]; intros bv vl cur Hfuel; [lia |].
  cbn [leb_while]. destruct (negb _); [| discriminate].
  destruct (rest_cases cur) as [Hend | (x & r & Hrest)].
  - rewrite (bind_raise _ _ _ _ _ (get_u8_end _ Hend)). discriminate.
  - rewrite (bind_ok _ _ _ _ _ (get_u8_ok _ _ _ Hrest)).
    apply IH. rewrite Hrest in Hfuel.
    rewrite (rest_advance_1 cur x r Hrest). simpl in Hfuel. lia.
Qed.

Lemma total_get_leb : total get_leb.
Proof.
  intros cur. unfold get_leb.
  destruct (rest_cases cur) as [Hend | (x & r & Hrest)].
  - rewrite (bind_raise _ _ _ _ _ (get_u8_end _ Hend)). discriminate.
  - rewrite (bind_ok _ _ _ _ _ (get_u8_ok _ _ _ Hrest)).
    assert (Hw : fst (leb_while (length (b cur)) (Byte.to_N x) []
                        (advance cur 1)) <> OutOfFuel).
    { apply leb_while_total. rewrite (rest_advance_1 cur x r Hrest).
      pose proof (rest_length cur) as Hlen. rewrite Hrest in Hlen.
      simpl in Hlen. lia. }
    unfold bind.
    destruct (leb_while _ _ _ _) as [[a | e |] s1]; cbn [fst] in *;
      [discriminate | discriminate | contradiction].
Qed.

Lemma total_for_range {A} (D : Cursor.M A) (n : nat) :
  total D -> forall acc, total (for_range n D acc).
Proof.
  intros HD. induction n as [| n IH]; intros acc; cbn [for_range].
  - apply total_ret.
  - apply total_bind; [exact HD | intros v; apply IH].
Qed.

Lemma total_get_array {A} (D : Cursor.M A) : total D -> total (get_array D).
Proof.
  intros HD. unfold get_array.
  apply total_bind; [apply total_get_leb | intros l].
  apply total_for_range, HD.
Qed.

Lemma total_get_prior {A} (D : Cursor.M A) : total D -> total (get_prior D).
Proof.
  intros HD. unfold get_prior, Prior_init.
  apply total_bind; [apply total_get_leb | intros tag].
  destruct (2 <? tag); [apply total_raise |].
  apply total_bind; [apply total_for_range, HD | intros vs; apply total_ret].
Qed.

Lemma total_get_byte_array : total get_byte_array.
Proof.
  unfold get_byte_array.
  apply total_bind; [apply total_get_leb | intros l; apply total_get_bytes].
Qed.

Lemma total_CommandData : total CommandData.init.
Proof.
  unfold CommandData.init.
  apply total_bind; [apply total_get_bytes | intros id].
  apply total_bind; [apply total_get_leb | intros pr].
  apply total_bind.
  { destruct (pr =? 1); [| apply total_ret].
    apply total_bind; [apply total_get_leb | intros v; apply total_ret]. }
  intros pv.
  apply total_bind; [apply total_get_option, total_get_byte_array | intros pol].
  apply total_bind; [apply total_get_byte_array | intros data].
  apply total_bind; [| intros upd; apply total_ret].
  apply total_get_array. unfold CommandData.decode_update.
  apply total_bind; [apply total_raise | intros name].
  apply total_bind; [apply total_get_array, total_get_byte_array | intros vs].
  apply total_bind; [apply total_get_option, total_get_byte_array | intros d].
  apply total_ret.
Qed.

Lemma total_decode_payload : total Segment.decode_payload.
Proof.
  unfold Segment.decode_payload.
  apply total_bind; [apply total_get_leb | intros off].
  apply total_bind.
  { apply total_get_prior. unfold decode_location.
    apply total_bind; [apply total_get_leb | intros l1].
    apply total_bind; [apply total_get_leb | intros l2]. apply total_ret. }
  intros pri.
  apply total_bind.
  { apply total_get_prior. unfold decode_address.
    apply total_bind; [apply total_get_bytes | intros l1].
    apply total_bind; [apply total_get_leb | intros l2]. apply total_ret. }
  intros par.
  apply total_bind; [apply total_get_bytes | intros pol].
  apply total_bind; [apply total_get_leb | intros facts].
  apply total_bind; [apply total_get_array, total_CommandData | intros cmds].
  apply total_bind; [apply total_get_leb | intros mc].
  apply total_bind; [| intros sl; apply total_ret].
  apply total_get_array. unfold Segment.decode_skip.
  apply total_bind; [apply total_get_leb | intros u].
  apply total_bind; [apply total_get_leb | intros v].
  apply total_bind; [apply total_get_leb | intros w]. apply total_ret.
Qed.

Lemma Segment_read_total (bs : bytes) (o : N) : Segment.read bs o <> OutOfFuel.
Proof.
  unfold Segment.read. destruct (negb _); [discriminate |].
  unfold unpack_from_I. destruct (Nat.eqb _ 4); [| discriminate].
  unfold Segment.decode_data.
  pose proof (total_decode_payload
                (Cursor.init
                   (slice bs (o + DATA_OFFSET + 8)
                      (o + DATA_OFFSET + 8
                       + le_int (slice bs (o + DATA_OFFSET + 4)
                                   (o + DATA_OFFSET + 4 + 4)))) false)) as H.
  destruct (Segment.decode_payload _) as [[p | e |] s1]; cbn [fst] in *;
    [discriminate | discriminate | contradiction].
Qed.

Lemma Segment_read_in_buffer (bs : bytes) (o : N) (s : Segment.t) :
  Segment.read bs o = Ok s -> o < N.of_nat (length bs).
Proof.
  intros H. destruct (Segment_read_ok bs o s H) as (Hmagic & _).
  apply (f_equal (@length byte)) in Hmagic.
  rewrite length_slice in Hmagic. simpl in Hmagic.
  unfold DATA_OFFSET in Hmagic. lia.
Qed.
(** ** The dictionary *)

Lemma dict_contains_keys {V} (k : N) (d : dict V) :
  dict_contains k d = true <-> In k (dict_keys d).
Proof.
  induction d as [| [k' v] d IH]; simpl.
  - split; [discriminate | contradiction].
  - rewrite orb_true_iff, IH, N.eqb_eq. split; intros [H | H]; auto.
Qed.

Lemma dict_set_new {V} (k : N) (v : V) (d : dict V) :
  dict_contains k d = false -> dict_set k v d = d ++ [(k, v)].
Proof.
  induction d as [| [k' v'] d IH]; simpl; [reflexivity |].
  intros H. apply orb_false_iff in H. destruct H as [Hk Hd].
  rewrite Hk, (IH Hd). reflexivity.
Qed.

Lemma dict_keys_app {V} (d1 d2 : dict V) :
  dict_keys (d1 ++ d2) = dict_keys d1 ++ dict_keys d2.
Proof. apply map_app. Qed.

Lemma in_dict_keys {V} (k : N) (v : V) (d : dict V) :
  In (k, v) d -> In k (dict_keys d).
Proof. intros H. apply (in_map fst) in H. exact H. Qed.

(** ** The walk *)

Lemma reach_edge (bs : bytes) (o p k : N) :
  prior_edge bs o p -> reachable bs p k -> reachable bs o k.
Proof.
  intros Hedge Hreach. induction Hreach as [| k k' _ IH Hstep].
  - apply (reach_step bs o o p); [apply reach_here | exact Hedge].
  - apply (reach_step bs o k k'); assumption.
Qed.

Lemma extends_refl (bs : bytes) (w : World) : extends bs [] w w.
Proof.
  exists []. rewrite !app_nil_r. repeat split; try contradiction.
  intros H; exact H.
Qed.

Lemma extends_mapped (bs : bytes) (o : N) (w : World) :
  In o (dict_keys (segments w)) -> extends bs [o] w w.
Proof.
  intros Hin. exists []. rewrite !app_nil_r. repeat split; try contradiction.
  - intros o' [<- | []]. exact Hin.
  - intros H; exact H.
Qed.

Lemma extends_trans (bs : bytes) (r1 r2 : list N) (w w1 w2 : World) :
  extends bs r1 w w1 -> extends bs r2 w1 w2 -> extends bs (r1 ++ r2) w w2.
Proof.
  intros (n1 & Hs1 & Hc1 & Hd1 & Hr1 & Hn1 & Hnd1)
         (n2 & Hs2 & Hc2 & Hd2 & Hr2 & Hn2 & Hnd2).
  assert (Hmono : forall t, In t (dict_keys (segments w1)) ->
                            In t (dict_keys (segments w2))).
  { intros t Ht. rewrite Hs2, dict_keys_app. apply in_or_app. left. exact Ht. }
  exists (n1 ++ n2). split; [| split; [| split; [| split; [| split]]]].
  - rewrite Hs2, Hs1, app_assoc. reflexivity.
  - rewrite Hc2, Hc1, dict_keys_app, app_assoc. reflexivity.
  - rewrite Hd2. exact Hd1.
  - intros o Ho. apply in_app_or in Ho. destruct Ho as [Ho | Ho].
    + apply Hmono, Hr1, Ho.
    + apply Hr2, Ho.
  - intros k s Hin. apply in_app_or in Hin. destruct Hin as [Hin | Hin].
    + destruct (Hn1 k s Hin) as (Hread & (o & Ho & Hreach) & Hclosed).
      split; [exact Hread |]. split.
      * exists o. split; [apply in_or_app; left; exact Ho | exact Hreach].
      * intros t Ht. apply Hmono, Hclosed, Ht.
    + destruct (Hn2 k s Hin) as (Hread & (o & Ho & Hreach) & Hclosed).
      split; [exact Hread |]. split.
      * exists o. split; [apply in_or_app; right; exact Ho | exact Hreach].
      * exact Hclosed.
  - intros H. apply Hnd2, Hnd1, H.
Qed.

(** The walk at [o] maps the segment, then walks its prior references. *)
Lemma extends_visit (bs : bytes) (o : N) (seg : Segment.t) (w w' : World) :
  dict_contains o (segments w) = false ->
  Segment.read bs o = Ok seg ->
  extends bs (prior_targets seg)
    (mkWorld (segments w ++ [(o, seg)]) (dot w) (calls w ++ [o])) w' ->
  extends bs [o] w w'.
Proof.
  intros Hnew Hread (n & Hs & Hc & Hd & Hr & Hn & Hnd).
  cbn [segments calls dot] in *.
  exists ((o, seg) :: n). split; [| split; [| split; [| split; [| split]]]].
  - rewrite Hs, <- app_assoc. reflexivity.
  - rewrite Hc, <- app_assoc. reflexivity.
  - exact Hd.
  - intros o' [<- | []]. rewrite Hs, !dict_keys_app.
    apply in_or_app. left. apply in_or_app. right. left. reflexivity.
  - intros k s [Heq | Hin].
    + injection Heq as <- <-. split; [exact Hread |]. split.
      * exists o. split; [left; reflexivity | apply reach_here].
      * exact Hr.
    + destruct (Hn k s Hin) as (Hk & (p & Hp & Hreach) & Hclosed).
      split; [exact Hk |]. split; [| exact Hclosed].
      exists o. split; [left; reflexivity |].
      apply (reach_edge bs o p k); [| exact Hreach].
      exists seg. split; assumption.
  - intros Hnodup. apply Hnd. rewrite dict_keys_app. cbn.
    apply NoDup_app; [exact Hnodup | constructor; [intros [] | constructor] |].
    intros k Hk [<- | []].
    apply dict_contains_keys in Hk. rewrite Hk in Hnew. discriminate.
Qed.

Lemma walk_step (bs : bytes) (fuel : nat) (o : N) (w : World) :
  walk_segment_tree bs (S fuel) o w
  = if dict_contains o (segments w) then (Ok tt, w)
    else match Segment.read bs o with
         | Ok seg =>
             for_each (values (Segment.prior seg))
               (fun p => walk_segment_tree bs fuel (fst p))
               (mkWorld (dict_set o seg (segments w)) (dot w)
                  (calls w ++ [o]))
         | Raise e => (Raise e, mkWorld (segments w) (dot w) (calls w ++ [o]))
         | OutOfFuel =>
             (OutOfFuel, mkWorld (segments w) (dot w) (calls w ++ [o]))
         end.
Proof.
  cbn [walk_segment_tree]. destruct (dict_contains o (segments w));
    [reflexivity |].
  unfold bind, new_Segment, Segment.init, segments_setitem.
  destruct (Segment.read bs o); reflexivity.
Qed.

Lemma walk_loop_extends (bs : bytes) (fuel : nat) :
  (forall o w w',
      walk_segment_tree bs fuel o w = (Ok tt, w') -> extends bs [o] w w') ->
  forall (l : list (N * N)) w w',
    for_each l (fun p => walk_segment_tree bs fuel (fst p)) w = (Ok tt, w') ->
    extends bs (map fst l) w w'.
Proof.
  intros IH l. induction l as [| p l IHl]; intros w w' H; cbn [for_each] in H.
  - apply ret_inv in H. destruct H as [_ <-]. apply extends_refl.
  - apply bind_inv in H. destruct H as ([] & w1 & Hp & H).
    apply (extends_trans bs [fst p] (map fst l) w w1 w').
    + apply IH, Hp.
    + apply IHl, H.
Qed.

Lemma walk_extends (bs : bytes) (fuel : nat) :
  forall o w w',
    walk_segment_tree bs fuel o w = (Ok tt, w') -> extends bs [o] w w'.
Proof.
  induction fuel as [| fuel IH]; intros o w w' H; [discriminate H |].
  rewrite walk_step in H.
  destruct (dict_contains o (segments w)) eqn:Hin.
  - injection H as <-. apply extends_mapped, dict_contains_keys, Hin.
  - destruct (Segment.read bs o) as [seg | e |] eqn:Hread; try discriminate H.
    rewrite (dict_set_new _ _ _ Hin) in H.
    apply (extends_visit bs o seg w w' Hin Hread).
    apply (walk_loop_extends bs fuel IH), H.
Qed.
(** ** The walk returns *)

Lemma keys_bounded (l : list N) (n : nat) :
  NoDup l -> Forall (fun k => k < N.of_nat n) l -> (length l <= n)%nat.
Proof.
  intros Hnd Hlt.
  rewrite <- (length_map N.to_nat l), <- (length_seq n 0).
  apply NoDup_incl_length.
  - apply Injective_map_NoDup; [| exact Hnd].
    intros x y Hxy. apply N2Nat.inj, Hxy.
  - intros x Hx. apply in_map_iff in Hx. destruct Hx as (k & <- & Hk).
    rewrite Forall_forall in Hlt. specialize (Hlt k Hk).
    apply in_seq. lia.
Qed.

Lemma mapped_in_length (bs : bytes) (w : World) :
  mapped_in bs w -> (length (segments w) <= length bs)%nat.
Proof.
  intros [Hnd Hlt]. unfold dict_keys in *.
  rewrite <- (length_map fst (segments w)). apply keys_bounded; assumption.
Qed.

Lemma extends_mapped_in (bs : bytes) (roots : list N) (w w' : World) :
  extends bs roots w w' -> mapped_in bs w ->
  mapped_in bs w' /\ (length (segments w) <= length (segments w'))%nat.
Proof.
  intros (n & Hs & _ & _ & _ & Hn & Hnd) [Hnodup Hlt]. split; [split |].
  - apply Hnd, Hnodup.
  - rewrite Hs, dict_keys_app. apply Forall_app. split; [exact Hlt |].
    apply Forall_forall. intros k Hk. unfold dict_keys in Hk.
    apply in_map_iff in Hk. destruct Hk as ([k' s] & <- & Hin).
    destruct (Hn k' s Hin) as (Hread & _).
    apply (Segment_read_in_buffer bs k' s Hread).
  - rewrite Hs, length_app. lia.
Qed.

Lemma walk_loop_total (bs : bytes) (fuel : nat) :
  (forall o w,
      mapped_in bs w -> (length bs < fuel + length (segments w))%nat ->
      fst (walk_segment_tree bs fuel o w) <> OutOfFuel) ->
  forall (l : list (N * N)) w,
    mapped_in bs w -> (length bs < fuel + length (segments w))%nat ->
    fst (for_each l (fun p => walk_segment_tree bs fuel (fst p)) w)
    <> OutOfFuel.
Proof.
  intros IH l. induction l as [| p l IHl]; intros w Hw Hfuel;
    cbn [for_each]; [discriminate |].
  unfold bind. specialize (IH (fst p) w Hw Hfuel).
  destruct (walk_segment_tree bs fuel (fst p) w) as [[[] | e |] w1] eqn:Hp;
    cbn [fst] in *; [| discriminate | contradiction].
  apply walk_extends in Hp.
  destruct (extends_mapped_in bs _ w w1 Hp Hw) as [Hw1 Hlen].
  apply IHl; [exact Hw1 | lia].
Qed.

Lemma mapped_in_visit (bs : bytes) (o : N) (seg : Segment.t) (w : World) :
  mapped_in bs w ->
  dict_contains o (segments w) = false ->
  Segment.read bs o = Ok seg ->
  mapped_in bs (mkWorld (segments w ++ [(o, seg)]) (dot w) (calls w ++ [o])).
Proof.
  intros [Hnd Hlt] Hnew Hread. unfold mapped_in. cbn [segments].
  rewrite dict_keys_app. cbn. split.
  - apply NoDup_app; [exact Hnd | constructor; [intros [] | constructor] |].
    intros k Hk [<- | []].
    apply dict_contains_keys in Hk. rewrite Hk in Hnew. discriminate.
  - apply Forall_app. split; [exact Hlt |].
    constructor; [| constructor].
    apply (Segment_read_in_buffer bs o seg Hread).
Qed.

Lemma walk_total (bs : bytes) (fuel : nat) :
  forall o w,
    mapped_in bs w -> (length bs < fuel + length (segments w))%nat ->
    fst (walk_segment_tree bs fuel o w) <> OutOfFuel.
Proof.
  induction fuel as [| fuel IH]; intros o w Hw Hfuel.
  - apply mapped_in_length in Hw. simpl in Hfuel. lia.
  - rewrite walk_step.
    destruct (dict_contains o (segments w)) eqn:Hin; [discriminate |].
    destruct (Segment.read bs o) as [seg | e |] eqn:Hread;
      [| discriminate | exfalso; apply (Segment_read_total bs o Hread)].
    rewrite (dict_set_new _ _ _ Hin).
    apply (walk_loop_total bs fuel IH).
    + apply mapped_in_visit; assumption.
    + cbn [segments]. rewrite length_app. simpl. lia.
Qed.

(** ** The export *)







(** ** The whole run *)



(** * Further properties *)

(** ** Alignment *)

(** X1: [align(to)] with a positive [to] always returns, moves the
    position to the least multiple of [to] that is not below it (so by
    less than [to], and not at all from a multiple), and leaves the
    buffer and the mode alone; [align(0)] raises [ZeroDivisionError]. *)
Theorem align_next_multiple :
  forall to cur,
    (to = 0 -> align to cur = (Raise ZeroDivisionError, cur))
    /\ (to <> 0 ->
        exists cur',
          align to cur = (Ok tt, cur')
          /\ b cur' = b cur /\ rkyv cur' = rkyv cur
          /\ c cur' mod to = 0
          /\ c cur <= c cur' < c cur + to
          /\ (c cur mod to = 0 -> cur' = cur)).
Proof.
  intros to cur. split.
  - intros ->. reflexivity.
  - intros Hto. unfold align.
    destruct (N.eqb_spec to 0) as [| _]; [contradiction |].
    pose proof (N.mod_lt (c cur) to Hto) as Hlt.
    pose proof (N.div_mod (c cur) to Hto) as Hdm.
    assert (Hmul : forall q, (q * to) mod to = 0)
      by (intros q; apply N.Div0.mod_mul).
    remember (c cur mod to) as r eqn:Hr. remember (c cur / to) as q eqn:Hq.
    destruct (N.eqb_spec r 0) as [Hz | Hnz]; cbn [negb].
    + exists cur. repeat split; try assumption; try lia.
    + exists (set_c cur (c cur + (to - r))).
      unfold set_c; cbn [b c rkyv].
      split; [reflexivity |]. split; [reflexivity |]. split; [reflexivity |].
      split; [| split; [lia | intros Hz; contradiction]].
      replace (c cur + (to - r)) with ((q + 1) * to) by nia.
      apply Hmul.
Qed.

Lemma align_next_multiple_witness :
  exists cur',
    align 4 (Cursor.mk [x00] 41 true) = (Ok tt, cur')
    /\ b cur' = [x00] /\ rkyv cur' = true
    /\ c cur' mod 4 = 0
    /\ 41 <= c cur' < 41 + 4
    /\ (41 mod 4 = 0 -> cur' = Cursor.mk [x00] 41 true).
Proof.
  apply (proj2 (align_next_multiple 4 (Cursor.mk [x00] 41 true))).
  discriminate.
Defined.

(** ** Fixed-width integers *)

Lemma byte_of_N_value (n : N) : Byte.to_N (byte_of_N n) = n mod 256.
Proof.
  unfold byte_of_N.
  pose proof (N.mod_lt n 256) as Hlt.
  destruct (Byte.of_N (n mod 256)) as [x |] eqn:Hx.
  - apply Byte.to_of_N in Hx. exact Hx.
  - apply Byte.of_N_None_iff in Hx. lia.
Qed.

Lemma le_bytes_length (width : nat) (n : N) : length (le_bytes width n) = width.
Proof.
  revert n. induction width as [| w IH]; intros n; simpl; [| rewrite IH];
    reflexivity.
Qed.

Lemma le_int_le_bytes (width : nat) :
  forall n, n < 256 ^ N.of_nat width -> le_int (le_bytes width n) = n.
Proof.
  induction width as [| w IH]; intros n Hn.
  - simpl in *. lia.
  - cbn [le_bytes le_int]. rewrite byte_of_N_value.
    rewrite IH.
    + pose proof (N.div_mod n 256). lia.
    + rewrite Nat2N.inj_succ, N.pow_succ_r' in Hn.
      apply N.Div0.div_lt_upper_bound. lia.
Qed.

Lemma le_int_bound (bs : bytes) : le_int bs < 256 ^ N.of_nat (length bs).
Proof.
  induction bs as [| x bs IH].
  - simpl. lia.
  - cbn [le_int length]. rewrite Nat2N.inj_succ, N.pow_succ_r'.
    pose proof (byte_lt_256 x). lia.
Qed.

Lemma get_fixed_ok (width : nat) (cur : Cursor.t) (pad r : bytes) (n : N) :
  n < 256 ^ N.of_nat width ->
  N.of_nat (length pad) = read_pos cur - c cur ->
  rest cur = pad ++ le_bytes width n ++ r ->
  (when_rkyv_align ;;;
   bs <- get_bytes (N.of_nat width) ;;
   fun cur' => (unpack width bs, cur')) cur
  = (Ok n, set_c cur (read_pos cur + N.of_nat width)).
Proof.
  intros Hn Hpad Hrest.
  rewrite (bind_ok _ _ _ _ _ (when_rkyv_align_run cur)).
  assert (Hle : c cur <= read_pos cur).
  { unfold read_pos, align_up. destruct (rkyv cur); [| lia].
    destruct (c cur mod 4 =? 0); lia. }
  assert (Hrest' : rest (set_c cur (read_pos cur)) = le_bytes width n ++ r).
  { replace (set_c cur (read_pos cur)) with (advance cur (length pad)).
    - apply (rest_advance cur pad _ Hrest).
    - unfold advance. f_equal. lia. }
  pose proof (get_bytes_ok _ _ _ Hrest') as Hget.
  rewrite le_bytes_length in Hget.
  rewrite (bind_ok _ _ _ _ _ Hget).
  unfold unpack. rewrite le_bytes_length, Nat.eqb_refl.
  rewrite (le_int_le_bytes width n Hn).
  unfold advance, set_c. cbn [b c rkyv]. reflexivity.
Qed.

(** X2: round trip of the fixed-width reads.  Where the bytes at the read
    position (the position itself, or the next multiple of 4 in
    word-aligned mode, whatever the bytes skipped) are the little-endian
    bytes of [n], [get_u16] (for [n < 2^16]) and [get_u32] (for
    [n < 2^32]) return [n] and leave the cursor right after them. *)
Theorem fixed_width_round_trip :
  forall cur pad r n,
    N.of_nat (length pad) = read_pos cur - c cur ->
    (n < 2 ^ 16 -> rest cur = pad ++ le_bytes 2 n ++ r ->
     get_u16 cur = (Ok n, set_c cur (read_pos cur + 2)))
    /\ (n < 2 ^ 32 -> rest cur = pad ++ le_bytes 4 n ++ r ->
        get_u32 cur = (Ok n, set_c cur (read_pos cur + 4))).
Proof.
  intros cur pad r n Hpad. split; intros Hn Hrest.
  - apply (get_fixed_ok 2 cur pad r n); assumption.
  - apply (get_fixed_ok 4 cur pad r n); assumption.
Qed.

Lemma fixed_width_round_trip_witness :
  get_u16 (Cursor.mk ([xff; xee; xdd; xcc] ++ le_bytes 2 513 ++ [x07]) 1 true)
  = (Ok 513,
     Cursor.mk ([xff; xee; xdd; xcc] ++ le_bytes 2 513 ++ [x07]) 6 true)
  /\ get_u32 (Cursor.mk ([xff] ++ le_bytes 4 4000000000 ++ [x07]) 1 false)
     = (Ok 4000000000,
        Cursor.mk ([xff] ++ le_bytes 4 4000000000 ++ [x07]) 5 false).
Proof.
  split.
  - apply (proj1 (fixed_width_round_trip
                    (Cursor.mk ([xff; xee; xdd; xcc] ++ le_bytes 2 513 ++ [x07])
                       1 true)
                    [xee; xdd; xcc] [x07] 513 eq_refl));
      reflexivity.
  - apply (proj2 (fixed_width_round_trip
                    (Cursor.mk ([xff] ++ le_bytes 4 4000000000 ++ [x07]) 1 false)
                    [] [x07] 4000000000 eq_refl));
      reflexivity.
Defined.

Lemma get_fixed_inv (width : nat) (cur : Cursor.t) (v : N) (cur' : Cursor.t) :
  (0 < width)%nat ->
  (when_rkyv_align ;;;
   bs <- get_bytes (N.of_nat width) ;;
   fun cur' => (unpack width bs, cur')) cur = (Ok v, cur') ->
  v < 256 ^ N.of_nat width
  /\ cur' = set_c cur (read_pos cur + N.of_nat width)
  /\ N.of_nat (length (b cur)) >= read_pos cur + N.of_nat width.
Proof.
  intros Hw.
  rewrite (bind_ok _ _ _ _ _ (when_rkyv_align_run cur)).
  unfold bind, get_bytes, peek_bytes, unpack. cbn [b c set_c rkyv].
  destruct (Nat.eqb_spec
              (length (slice (b cur) (read_pos cur)
                         (read_pos cur + N.of_nat width))) width)
    as [Hlen | Hlen]; [| discriminate].
  intros H. injection H as <- <-.
  split; [| split].
  - rewrite <- Hlen at 2. apply le_int_bound.
  - reflexivity.
  - rewrite length_slice in Hlen. lia.
Qed.

(** X3: what a fixed-width read returns.  When [get_u16] or [get_u32]
    returns, the value is below 2^16 or 2^32, the cursor stands 2 or 4
    bytes after the read position, and these bytes were inside the
    buffer. *)
Theorem fixed_width_bounds :
  forall cur v cur',
    (get_u16 cur = (Ok v, cur') ->
     v < 2 ^ 16 /\ cur' = set_c cur (read_pos cur + 2)
     /\ N.of_nat (length (b cur)) >= read_pos cur + 2)
    /\ (get_u32 cur = (Ok v, cur') ->
        v < 2 ^ 32 /\ cur' = set_c cur (read_pos cur + 4)
        /\ N.of_nat (length (b cur)) >= read_pos cur + 4).
Proof.
  intros cur v cur'. split; intros H.
  - apply (get_fixed_inv 2 cur v cur'); [lia | exact H].
  - apply (get_fixed_inv 4 cur v cur'); [lia | exact H].
Qed.

Lemma fixed_width_bounds_witness :
  258 < 2 ^ 32
  /\ Cursor.mk [x09; x09; x09; x09; x02; x01; x00; x00] 8 true
     = set_c (Cursor.mk [x09; x09; x09; x09; x02; x01; x00; x00] 3 true)
         (read_pos (Cursor.mk [x09; x09; x09; x09; x02; x01; x00; x00] 3 true)
          + 4)
  /\ N.of_nat (length [x09; x09; x09; x09; x02; x01; x00; x00])
     >= read_pos (Cursor.mk [x09; x09; x09; x09; x02; x01; x00; x00] 3 true) + 4.
Proof.
  apply (proj2 (fixed_width_bounds
                  (Cursor.mk [x09; x09; x09; x09; x02; x01; x00; x00] 3 true)
                  258
                  (Cursor.mk [x09; x09; x09; x09; x02; x01; x00; x00] 8 true))).
  reflexivity.
Defined.
(** ** Optional values *)

Lemma get_bool_ok (cur : Cursor.t) (x : byte) (r : bytes) :
  rest cur = x :: r ->
  get_bool cur = (Ok (negb (Byte.to_N x =? 0)), advance cur 1).
Proof.
  intros H. unfold get_bool.
  rewrite (bind_ok _ _ _ _ _ (get_u8_ok _ _ _ H)). reflexivity.
Qed.

(** X4: [get_option] at the end of the buffer raises [IndexError] and
    leaves the cursor where it was; before a zero byte it returns [None],
    has consumed this one byte and has not run the decoder; before any
    other byte it runs the decoder right after that byte and returns its
    value in [Some], or fails as the decoder fails. *)
Theorem get_option_flag :
  forall (A : Type) (D : Cursor.M A) cur,
    (rest cur = [] -> get_option D cur = (Raise IndexError, cur))
    /\ (forall r, rest cur = x00 :: r ->
                  get_option D cur = (Ok None, advance cur 1))
    /\ (forall x r,
           rest cur = x :: r -> x <> x00 ->
           get_option D cur
           = match D (advance cur 1) with
             | (Ok v, cur') => (Ok (Some v), cur')
             | (Raise e, cur') => (Raise e, cur')
             | (OutOfFuel, cur') => (OutOfFuel, cur')
             end).
Proof.
  intros A D cur. split; [| split].
  - intros Hend. unfold get_option, get_bool.
    unfold bind at 1. unfold bind at 1.
    rewrite (get_u8_end _ Hend). reflexivity.
  - intros r Hrest. unfold get_option.
    rewrite (bind_ok _ _ _ _ _ (get_bool_ok _ _ _ Hrest)). reflexivity.
  - intros x r Hrest Hx. unfold get_option.
    rewrite (bind_ok _ _ _ _ _ (get_bool_ok _ _ _ Hrest)).
    destruct (N.eqb_spec (Byte.to_N x) 0) as [H0 | H0];
      [exfalso; apply Hx, byte_to_N_0, H0 |].
    cbn [negb]. unfold bind.
    destruct (D (advance cur 1)) as [[v | e |] cur']; reflexivity.
Qed.

Lemma get_option_flag_witness :
  get_option get_leb (Cursor.mk [x07; x00; x09] 1 false)
  = (Ok None, Cursor.mk [x07; x00; x09] 2 false)
  /\ get_option get_leb (Cursor.mk [x07; x00; x09] 0 false)
     = (Ok (Some 0), Cursor.mk [x07; x00; x09] 2 false)
  /\ get_option get_leb (Cursor.mk [x07; x00; x09] 3 false)
     = (Raise IndexError, Cursor.mk [x07; x00; x09] 3 false).
Proof.
  split; [| split].
  - apply (proj1 (proj2 (get_option_flag N get_leb
                           (Cursor.mk [x07; x00; x09] 1 false))) [x09]).
    reflexivity.
  - apply (proj2 (proj2 (get_option_flag N get_leb
                           (Cursor.mk [x07; x00; x09] 0 false)))
             x07 [x00; x09]).
    + reflexivity.
    + discriminate.
  - apply (proj1 (get_option_flag N get_leb
                    (Cursor.mk [x07; x00; x09] 3 false))).
    reflexivity.
Defined.

(** ** More on variable-length integers *)

Lemma get_u8_cases (cur : Cursor.t) (v : N) (cur' : Cursor.t) :
  get_u8 cur = (Ok v, cur') ->
  exists x r, rest cur = x :: r /\ v = Byte.to_N x /\ cur' = advance cur 1.
Proof.
  intros H. destruct (rest_cases cur) as [Hend | (x & r & Hrest)].
  - rewrite (get_u8_end _ Hend) in H. discriminate H.
  - rewrite (get_u8_ok _ _ _ Hrest) in H. injection H as <- <-.
    exists x, r. repeat split. exact Hrest.
Qed.

Lemma byte_high (x : byte) :
  128 <= Byte.to_N x -> negb (N.land (Byte.to_N x) 0x80 =? 0) = true.
Proof.
  intros H. rewrite byte_high_bit.
  destruct (N.ltb_spec (Byte.to_N x) 128); [lia | reflexivity].
Qed.

Lemma byte_low (x : byte) :
  Byte.to_N x < 128 -> negb (N.land (Byte.to_N x) 0x80 =? 0) = false.
Proof.
  intros H. rewrite byte_high_bit.
  destruct (N.ltb_spec (Byte.to_N x) 128); [reflexivity | lia].
Qed.

Lemma leb_while_truncated (fuel : nat) :
  forall x vl cur,
    128 <= Byte.to_N x ->
    Forall (fun y => 128 <= Byte.to_N y) (rest cur) ->
    (length (rest cur) < fuel)%nat ->
    leb_while fuel (Byte.to_N x) vl cur
    = (Raise IndexError, advance cur (length (rest cur))).
Proof.
  induction fuel as [| fuel IH]; intros x vl cur Hx Hall Hfuel; [lia |].
  cbn [leb_while]. rewrite (byte_high x Hx).
  destruct (rest_cases cur) as [Hend | (y & r & Hrest)].
  - rewrite (bind_raise _ _ _ _ _ (get_u8_end _ Hend)), Hend.
    cbn [length]. rewrite advance_0. reflexivity.
  - rewrite (bind_ok _ _ _ _ _ (get_u8_ok _ _ _ Hrest)).
    pose proof (rest_advance_1 cur y r Hrest) as Hnext.
    rewrite Hrest in Hall, Hfuel.
    pose proof (Forall_inv Hall) as Hy. pose proof (Forall_inv_tail Hall) as Hr.
    rewrite IH; [| exact Hy | rewrite Hnext; exact Hr
                 | rewrite Hnext; simpl in Hfuel; lia].
    rewrite Hnext, Hrest, advance_advance. reflexivity.
Qed.

(** X5: a variable-length integer that does not end inside the buffer is
    an error.  If every byte from the cursor to the end of the buffer has
    its high bit set (none being left is a case of this), [get_leb]
    raises [IndexError], having read all of them. *)
Theorem get_leb_truncated :
  forall cur,
    Forall (fun y => 128 <= Byte.to_N y) (rest cur) ->
    get_leb cur = (Raise IndexError, advance cur (length (rest cur))).
Proof.
  intros cur Hall. unfold get_leb.
  destruct (rest_cases cur) as [Hend | (x & r & Hrest)].
  - rewrite (bind_raise _ _ _ _ _ (get_u8_end _ Hend)), Hend.
    cbn [length]. rewrite advance_0. reflexivity.
  - rewrite (bind_ok _ _ _ _ _ (get_u8_ok _ _ _ Hrest)).
    pose proof (rest_advance_1 cur x r Hrest) as Hnext.
    pose proof (rest_length cur) as Hlen.
    rewrite Hrest in Hall, Hlen.
    pose proof (Forall_inv Hall) as Hx. pose proof (Forall_inv_tail Hall) as Hr.
    rewrite (bind_raise _ _ _ _ _
               (leb_while_truncated (length (b cur)) x [] (advance cur 1) Hx
                  ltac:(rewrite Hnext; exact Hr)
                  ltac:(rewrite Hnext; simpl in Hlen; lia))).
    rewrite Hnext, Hrest, advance_advance. reflexivity.
Qed.

Lemma get_leb_truncated_witness :
  get_leb (Cursor.mk [x01; x80; xff; x96] 1 false)
  = (Raise IndexError, Cursor.mk [x01; x80; xff; x96] 4 false).
Proof.
  apply (get_leb_truncated (Cursor.mk [x01; x80; xff; x96] 1 false)).
  repeat constructor; vm_compute; discriminate.
Defined.

Lemma leb_while_inv (fuel : nat) :
  forall x vl cur bv vl' cur',
    leb_while fuel (Byte.to_N x) vl cur = (Ok (bv, vl'), cur') ->
    exists tl n,
      Wire.leb (x :: tl) n
      /\ rest cur = tl ++ rest cur'
      /\ cur' = advance cur (length tl)
      /\ vl' ++ [bv] = vl ++ map low7 (x :: tl).
Proof.
  induction fuel as [| fuel IH]; intros x vl cur bv vl' cur' H;
    cbn [leb_while] in H;
    destruct (N.lt_ge_cases (Byte.to_N x) 128) as [Hx | Hx].
  - rewrite (byte_low x Hx) in H. apply ret_inv in H.
    destruct H as [H <-]. injection H as <- <-.
    exists [], (Byte.to_N x). cbn [length app map].
    rewrite advance_0. repeat split.
    + apply Wire.leb_last, Hx.
    + unfold low7. rewrite byte_low7, N.mod_small by exact Hx. reflexivity.
  - rewrite (byte_high x Hx) in H. discriminate H.
  - rewrite (byte_low x Hx) in H. apply ret_inv in H.
    destruct H as [H <-]. injection H as <- <-.
    exists [], (Byte.to_N x). cbn [length app map].
    rewrite advance_0. repeat split.
    + apply Wire.leb_last, Hx.
    + unfold low7. rewrite byte_low7, N.mod_small by exact Hx. reflexivity.
  - rewrite (byte_high x Hx) in H.
    apply bind_inv in H. destruct H as (v & cur1 & Hu8 & H).
    apply get_u8_cases in Hu8. destruct Hu8 as (y & r & Hrest & -> & ->).
    apply IH in H. destruct H as (tl & n & Hleb & Hr & -> & Hvl).
    exists (y :: tl), (Byte.to_N x - 128 + 128 * n).
    split; [| split; [| split]].
    + apply Wire.leb_more; assumption.
    + rewrite (rest_advance_1 cur y r Hrest) in Hr.
      rewrite Hrest, Hr. reflexivity.
    + rewrite advance_advance. reflexivity.
    + rewrite Hvl, <- app_assoc. reflexivity.
Qed.

Lemma leb_value_bound enc n :
  Wire.leb enc n -> n < 128 ^ N.of_nat (length enc).
Proof.
  induction 1 as [x Hx | x more n Hx Hmore IH].
  - simpl. exact Hx.
  - cbn [length]. rewrite Nat2N.inj_succ, N.pow_succ_r'.
    pose proof (byte_lt_256 x). lia.
Qed.

(** X6: [get_leb] returns only what is written.  When it returns [v],
    the bytes it has consumed are a valid variable-length integer of
    value [v], at least one byte and nothing more; so [v] is below
    128 to the power of the number of bytes consumed. *)
Theorem get_leb_sound :
  forall cur v cur',
    get_leb cur = (Ok v, cur') ->
    exists enc,
      Wire.leb enc v
      /\ rest cur = enc ++ rest cur'
      /\ cur' = advance cur (length enc)
      /\ (1 <= length enc)%nat
      /\ v < 128 ^ N.of_nat (length enc).
Proof.
  intros cur v cur' H. unfold get_leb in H.
  apply bind_inv in H. destruct H as (bv & cur1 & Hu8 & H).
  apply get_u8_cases in Hu8. destruct Hu8 as (x & r & Hrest & -> & ->).
  apply bind_inv in H. destruct H as ([bv vl] & cur2 & Hloop & H).
  apply ret_inv in H. destruct H as [<- <-]. cbn [fst snd].
  apply leb_while_inv in Hloop.
  destruct Hloop as (tl & n & Hleb & Hr & -> & Hvl).
  cbn [app] in Hvl. rewrite Hvl, (leb_combine_groups _ _ Hleb).
  exists (x :: tl). split; [exact Hleb |]. split; [| split; [| split]].
  - rewrite (rest_advance_1 cur x r Hrest) in Hr. rewrite Hrest, Hr.
    reflexivity.
  - rewrite advance_advance. reflexivity.
  - simpl. lia.
  - apply (leb_value_bound _ _ Hleb).
Qed.

Lemma get_leb_sound_witness :
  exists enc,
    Wire.leb enc 150
    /\ rest (Cursor.mk [x96; x01; x07] 0 false)
       = enc ++ rest (Cursor.mk [x96; x01; x07] 2 false)
    /\ Cursor.mk [x96; x01; x07] 2 false
       = advance (Cursor.mk [x96; x01; x07] 0 false) (length enc)
    /\ (1 <= length enc)%nat
    /\ 150 < 128 ^ N.of_nat (length enc).
Proof.
  apply (get_leb_sound (Cursor.mk [x96; x01; x07] 0 false) 150
           (Cursor.mk [x96; x01; x07] 2 false)).
  reflexivity.
Defined.

Lemma byte_of_N_small (n : N) : n < 256 -> Byte.to_N (byte_of_N n) = n.
Proof. intros H. rewrite byte_of_N_value. apply N.mod_small, H. Qed.

Lemma leb_more_eq (x : byte) (more : bytes) (m n : N) :
  128 <= Byte.to_N x -> Wire.leb more m ->
  n = Byte.to_N x - 128 + 128 * m -> Wire.leb (x :: more) n.
Proof. intros Hx Hm ->. apply Wire.leb_more; assumption. Qed.

Lemma encode_leb_fuel_wire (fuel : nat) :
  forall n, n < 2 ^ (7 + N.of_nat fuel) -> Wire.leb (encode_leb_fuel fuel n) n.
Proof.
  induction fuel as [| fuel IH]; intros n Hn; cbn [encode_leb_fuel].
  - change (2 ^ (7 + N.of_nat 0)) with 128 in Hn.
    rewrite <- (byte_of_N_small n) at 2 by lia.
    apply Wire.leb_last. rewrite byte_of_N_small; lia.
  - destruct (N.ltb_spec n 128) as [Hlt | Hge].
    + rewrite <- (byte_of_N_small n) at 2 by lia.
      apply Wire.leb_last. rewrite byte_of_N_small; lia.
    + assert (Hmod : n mod 128 < 128) by (apply N.mod_lt; discriminate).
      assert (Hdm : n = 128 * (n / 128) + n mod 128)
        by (apply N.div_mod; discriminate).
      remember (n mod 128) as r eqn:Hr. remember (n / 128) as q eqn:Hq.
      assert (Hx : Byte.to_N (byte_of_N (r + 128)) = r + 128)
        by (apply byte_of_N_small; lia).
      apply (leb_more_eq _ _ q);
        [rewrite Hx; clear Hn; lia | | rewrite Hx; clear Hn; lia].
      apply IH. rewrite Nat2N.inj_succ in Hn.
      replace (7 + N.succ (N.of_nat fuel)) with (N.succ (7 + N.of_nat fuel))
        in Hn by lia.
      rewrite N.pow_succ_r' in Hn.
      assert (Hpow : 2 ^ (7 + N.of_nat fuel) = 128 * 2 ^ N.of_nat fuel)
        by (rewrite N.pow_add_r; reflexivity).
      remember (2 ^ (7 + N.of_nat fuel)) as p eqn:Hp.
      remember (2 ^ N.of_nat fuel) as p0 eqn:Hp0.
      lia.
Qed.

Lemma encode_leb_wire (n : N) : Wire.leb (encode_leb n) n.
Proof.
  apply encode_leb_fuel_wire. rewrite N2Nat.id.
  apply N.lt_le_trans with (2 ^ N.size n).
  - apply N.size_gt.
  - apply N.pow_le_mono_r; lia.
Qed.

(** X7: round trip of the variable-length integers.  Every number [n] is
    read back by [get_leb] from its shortest encoding (7 bits a byte, least
    significant group first, the high bit set on all bytes but the last),
    and the cursor moves past exactly this encoding. *)
Theorem leb_round_trip :
  forall n cur r,
    rest cur = encode_leb n ++ r ->
    get_leb cur = (Ok n, advance cur (length (encode_leb n))).
Proof.
  intros n cur r Hrest.
  apply (get_leb_parses cur (encode_leb n) n r (encode_leb_wire n) Hrest).
Qed.

Lemma leb_round_trip_witness :
  get_leb (Cursor.mk (encode_leb 300 ++ [x07]) 0 false)
  = (Ok 300, Cursor.mk (encode_leb 300 ++ [x07]) 2 false).
Proof.
  apply (leb_round_trip 300 (Cursor.mk (encode_leb 300 ++ [x07]) 0 false) [x07]).
  reflexivity.
Defined.
(** ** The frame of the cursor *)

Lemma frame_ret {A} (a : A) : keeps_frame (ret a).
Proof. intros cur. cbn. repeat split. lia. Qed.

Lemma frame_raise {A} (e : exn) : keeps_frame (@raise Cursor.t A e).
Proof. intros cur. cbn. repeat split. lia. Qed.

Lemma frame_bind {A B} (m : Cursor.M A) (k : A -> Cursor.M B) :
  keeps_frame m -> (forall a, keeps_frame (k a)) -> keeps_frame (bind m k).
Proof.
  intros Hm Hk cur. unfold bind. specialize (Hm cur).
  destruct (m cur) as [[a | e |] cur1]; cbn [snd] in *; try exact Hm.
  destruct Hm as (Hb & Hr & Hc). destruct (Hk a cur1) as (Hb' & Hr' & Hc').
  rewrite Hb', Hr'. repeat split; try assumption. lia.
Qed.

Lemma frame_get_u8 : keeps_frame get_u8.
Proof.
  intros cur. unfold get_u8. destruct (index (b cur) (c cur));
    cbn; repeat split; lia.
Qed.

Lemma frame_get_bytes (n : N) : keeps_frame (get_bytes n).
Proof. intros cur. cbn. repeat split. lia. Qed.

Lemma frame_align (to : N) : keeps_frame (align to).
Proof.
  intros cur. unfold align. destruct (to =? 0); [cbn; repeat split; lia |].
  destruct (negb _); cbn; repeat split; lia.
Qed.

Lemma read_pos_ge (cur : Cursor.t) : c cur <= read_pos cur.
Proof.
  unfold read_pos, align_up. destruct (rkyv cur); [| lia].
  destruct (c cur mod 4 =? 0); lia.
Qed.

Lemma frame_get_bool : keeps_frame get_bool.
Proof.
  unfold get_bool.
  apply frame_bind; [apply frame_get_u8 | intros v; apply frame_ret].
Qed.

Lemma frame_get_fixed (width : nat) :
  keeps_frame
    (when_rkyv_align ;;;
     bs <- get_bytes (N.of_nat width) ;;
     fun cur' => (unpack width bs, cur')).
Proof.
  apply frame_bind.
  - intros cur. rewrite when_rkyv_align_run. cbn. repeat split.
    apply read_pos_ge.
  - intros _. apply frame_bind; [apply frame_get_bytes |].
    intros bs cur. cbn. repeat split. lia.
Qed.

Lemma frame_get_option {A} (D : Cursor.M A) :
  keeps_frame D -> keeps_frame (get_option D).
Proof.
  intros HD. unfold get_option, get_bool. apply frame_bind.
  - apply frame_bind; [apply frame_get_u8 | intros v; apply frame_ret].
  - intros [|]; [| apply frame_ret].
    apply frame_bind; [exact HD | intros v; apply frame_ret].
Qed.

Lemma frame_leb_while (fuel : nat) :
  forall bv vl, keeps_frame (leb_while fuel bv vl).
Proof.
  induction fuel as [| fuel IH]; intros bv vl; cbn [leb_while];
    destruct (negb _); try apply frame_ret.
  - intros cur. cbn. repeat split. lia.
  - apply frame_bind; [apply frame_get_u8 | intros bv'; apply IH].
Qed.

Lemma frame_get_leb : keeps_frame get_leb.
Proof.
  intros cur. unfold get_leb.
  apply (frame_bind get_u8
           (fun bv => r <- leb_while (length (b cur)) bv [] ;;
                      ret (leb_combine (snd r ++ [fst r])))).
  - apply frame_get_u8.
  - intros bv. apply frame_bind; [apply frame_leb_while |].
    intros r. apply frame_ret.
Qed.

Lemma frame_for_range {A} (D : Cursor.M A) (n : nat) :
  keeps_frame D -> forall acc, keeps_frame (for_range n D acc).
Proof.
  intros HD. induction n as [| n IH]; intros acc; cbn [for_range].
  - apply frame_ret.
  - apply frame_bind; [exact HD | intros v; apply IH].
Qed.

Lemma frame_get_array {A} (D : Cursor.M A) :
  keeps_frame D -> keeps_frame (get_array D).
Proof.
  intros HD. unfold get_array.
  apply frame_bind; [apply frame_get_leb | intros l].
  apply frame_for_range, HD.
Qed.

Lemma frame_get_prior {A} (D : Cursor.M A) :
  keeps_frame D -> keeps_frame (get_prior D).
Proof.
  intros HD. unfold get_prior, Prior_init.
  apply frame_bind; [apply frame_get_leb | intros tag].
  destruct (2 <? tag); [apply frame_raise |].
  apply frame_bind; [apply frame_for_range, HD | intros vs; apply frame_ret].
Qed.

Lemma frame_get_byte_array : keeps_frame get_byte_array.
Proof.
  unfold get_byte_array.
  apply frame_bind; [apply frame_get_leb | intros l; apply frame_get_bytes].
Qed.

Lemma frame_decode_location : keeps_frame decode_location.
Proof.
  unfold decode_location.
  apply frame_bind; [apply frame_get_leb | intros l1].
  apply frame_bind; [apply frame_get_leb | intros l2]. apply frame_ret.
Qed.

Lemma frame_decode_address : keeps_frame decode_address.
Proof.
  unfold decode_address.
  apply frame_bind; [apply frame_get_bytes | intros l1].
  apply frame_bind; [apply frame_get_leb | intros l2]. apply frame_ret.
Qed.

Lemma frame_CommandData : keeps_frame CommandData.init.
Proof.
  unfold CommandData.init.
  apply frame_bind; [apply frame_get_bytes | intros id].
  apply frame_bind; [apply frame_get_leb | intros pr].
  apply frame_bind.
  { destruct (pr =? 1); [| apply frame_ret].
    apply frame_bind; [apply frame_get_leb | intros v; apply frame_ret]. }
  intros pv.
  apply frame_bind; [apply frame_get_option, frame_get_byte_array | intros pol].
  apply frame_bind; [apply frame_get_byte_array | intros data].
  apply frame_bind; [| intros upd; apply frame_ret].
  apply frame_get_array. unfold CommandData.decode_update.
  apply frame_bind; [apply frame_raise | intros name].
  apply frame_bind; [apply frame_get_array, frame_get_byte_array | intros vs].
  apply frame_bind; [apply frame_get_option, frame_get_byte_array | intros d].
  apply frame_ret.
Qed.

Lemma frame_decode_payload : keeps_frame Segment.decode_payload.
Proof.
  unfold Segment.decode_payload.
  apply frame_bind; [apply frame_get_leb | intros off].
  apply frame_bind; [apply frame_get_prior, frame_decode_location | intros pri].
  apply frame_bind; [apply frame_get_prior, frame_decode_address | intros par].
  apply frame_bind; [apply frame_get_bytes | intros pol].
  apply frame_bind; [apply frame_get_leb | intros facts].
  apply frame_bind; [apply frame_get_array, frame_CommandData | intros cmds].
  apply frame_bind; [apply frame_get_leb | intros mc].
  apply frame_bind; [| intros sl; apply frame_ret].
  apply frame_get_array. unfold Segment.decode_skip.
  apply frame_bind; [apply frame_get_leb | intros u].
  apply frame_bind; [apply frame_get_leb | intros v].
  apply frame_bind; [apply frame_get_leb | intros w]. apply frame_ret.
Qed.

Lemma frame_Header_decode : keeps_frame Header.decode.
Proof.
  unfold Header.decode. apply frame_bind; [apply frame_get_bytes |].
  intros magic. destruct (negb _); [apply frame_raise |].
  apply frame_bind; [apply (frame_get_fixed 4) | intros epoch].
  apply frame_bind; [apply frame_get_option, frame_get_bytes | intros gid].
  apply frame_bind; [apply frame_align | intros _].
  apply frame_bind.
  { apply frame_get_option.
    apply frame_bind; [apply (frame_get_fixed 4) | intros h0].
    apply frame_bind; [apply (frame_get_fixed 4) | intros h1].
    apply frame_ret. }
  intros head.
  apply frame_bind; [apply (frame_get_fixed 4) | intros stored].
  apply frame_ret.
Qed.

(** X8: no read rewinds the cursor or touches the buffer.  Whatever they
    return or raise, the reads of the cursor and the decoders of the
    header, of a command and of the payload of a segment leave the buffer
    and the mode of the cursor as they were, and its position where it was
    or further. *)
Theorem reads_keep_frame :
  keeps_frame get_u8 /\ keeps_frame get_bool
  /\ keeps_frame get_u16 /\ keeps_frame get_u32
  /\ keeps_frame get_leb /\ keeps_frame get_byte_array
  /\ (forall n, keeps_frame (get_bytes n))
  /\ (forall to, keeps_frame (align to))
  /\ keeps_frame decode_location /\ keeps_frame decode_address
  /\ keeps_frame CommandData.init
  /\ keeps_frame Segment.decode_payload
  /\ keeps_frame Header.decode.
Proof.
  split; [apply frame_get_u8 |]. split; [apply frame_get_bool |].
  split; [apply (frame_get_fixed 2) |]. split; [apply (frame_get_fixed 4) |].
  split; [apply frame_get_leb |]. split; [apply frame_get_byte_array |].
  split; [apply frame_get_bytes |]. split; [apply frame_align |].
  split; [apply frame_decode_location |].
  split; [apply frame_decode_address |].
  split; [apply frame_CommandData |].
  split; [apply frame_decode_payload | apply frame_Header_decode].
Qed.
(** ** Counted sequences *)

Lemma for_range_first_raise {A} (D : Cursor.M A) (n : nat) acc cur e cur' :
  D cur = (Raise e, cur') ->
  for_range (S n) D acc cur = (Raise e, cur').
Proof. intros H. cbn [for_range]. apply bind_raise, H. Qed.

(** X9: a counted sequence has as many elements as its count says.  When
    [get_array] returns, its count was read as [n] and the list has [n]
    elements; when [get_prior] returns, moreover [n <= 2].  With the count
    0 both return the empty list right after the count, and when the
    decoder of the first element raises, they raise the same with the
    cursor where the decoder left it. *)
Theorem counted_sequences :
  forall (A : Type) (D : Cursor.M A) cur,
    (forall vs cur',
        get_array D cur = (Ok vs, cur') ->
        exists n cur1,
          get_leb cur = (Ok n, cur1) /\ length vs = N.to_nat n)
    /\ (forall p cur',
           get_prior D cur = (Ok p, cur') ->
           exists n cur1,
             get_leb cur = (Ok n, cur1) /\ n <= 2
             /\ length (values p) = N.to_nat n)
    /\ (forall cur1,
           get_leb cur = (Ok 0, cur1) ->
           get_array D cur = (Ok [], cur1)
           /\ get_prior D cur = (Ok (mkPrior []), cur1))
    /\ (forall n cur1 e cur2,
           get_leb cur = (Ok n, cur1) -> 1 <= n ->
           D cur1 = (Raise e, cur2) ->
           get_array D cur = (Raise e, cur2)
           /\ (n <= 2 -> get_prior D cur = (Raise e, cur2))).
Proof.
  intros A D cur. split; [| split; [| split]].
  - intros vs cur' H. unfold get_array in H.
    apply bind_inv in H. destruct H as (n & cur1 & Hn & H).
    apply for_range_length in H. exists n, cur1. split; [exact Hn |].
    simpl in H. exact H.
  - intros p cur' H. unfold get_prior, Prior_init in H.
    apply bind_inv in H. destruct H as (n & cur1 & Hn & H).
    destruct (N.ltb_spec 2 n) as [Hgt | Hle]; [discriminate H |].
    apply bind_inv in H. destruct H as (vs & cur2 & Hvs & H).
    apply ret_inv in H. destruct H as [<- _].
    apply for_range_length in Hvs. exists n, cur1.
    split; [exact Hn |]. split; [exact Hle |]. simpl in Hvs. exact Hvs.
  - intros cur1 H0. unfold get_array, get_prior, Prior_init.
    rewrite !(bind_ok _ _ _ _ _ H0). split; reflexivity.
  - intros n cur1 e cur2 Hn Hpos HD.
    unfold get_array, get_prior, Prior_init.
    rewrite !(bind_ok _ _ _ _ _ Hn).
    destruct (N.to_nat n) as [| k] eqn:Hk; [lia |].
    split.
    + apply for_range_first_raise, HD.
    + intros Hle. destruct (N.ltb_spec 2 n) as [Hgt | _]; [lia |].
      apply bind_raise. apply for_range_first_raise, HD.
Qed.

Lemma counted_sequences_witness :
  (exists n cur1,
      get_leb (Cursor.mk [x02; x05; x06; x07] 0 false) = (Ok n, cur1)
      /\ length [5; 6] = N.to_nat n)
  /\ (get_array get_leb (Cursor.mk [x02; x80] 0 false)
      = (Raise IndexError, Cursor.mk [x02; x80] 2 false)
      /\ (2 <= 2 ->
          get_prior get_leb (Cursor.mk [x02; x80] 0 false)
          = (Raise IndexError, Cursor.mk [x02; x80] 2 false))).
Proof.
  split.
  - apply (proj1 (counted_sequences N get_leb
                    (Cursor.mk [x02; x05; x06; x07] 0 false))
             [5; 6] (Cursor.mk [x02; x05; x06; x07] 3 false)).
    reflexivity.
  - apply (proj2 (proj2 (proj2 (counted_sequences N get_leb
                                  (Cursor.mk [x02; x80] 0 false))))
             2 (Cursor.mk [x02; x80] 1 false) IndexError
             (Cursor.mk [x02; x80] 2 false)).
    + reflexivity.
    + vm_compute; discriminate.
    + reflexivity.
Defined.

(** ** Records of the payload *)

(** X10: round trip of the references of a segment.  Before a location
    written as two variable-length integers, [decode_location] returns
    the pair; before an address written as 32 raw bytes and a
    variable-length integer, [decode_address] returns the pair; each moves
    the cursor past exactly what it has read. *)
Theorem references_round_trip :
  forall cur r,
    (forall e1 e2 l1 l2,
        Wire.leb e1 l1 -> Wire.leb e2 l2 ->
        rest cur = e1 ++ e2 ++ r ->
        decode_location cur
        = (Ok (l1, l2), advance cur (length e1 + length e2)))
    /\ (forall id e l,
           length id = 32%nat -> Wire.leb e l ->
           rest cur = id ++ e ++ r ->
           decode_address cur = (Ok (id, l), advance cur (32 + length e))).
Proof.
  intros cur r. split.
  - intros e1 e2 l1 l2 H1 H2 Hrest.
    rewrite <- length_app.
    apply (decode_location_parses cur (e1 ++ e2) (l1, l2) r).
    + exists e1, e2. repeat split; assumption.
    + rewrite <- app_assoc. exact Hrest.
  - intros id e l Hid He Hrest.
    rewrite <- Hid, <- length_app.
    apply (decode_address_parses cur (id ++ e) (id, l) r).
    + exists id, e. repeat split; assumption.
    + rewrite <- app_assoc. exact Hrest.
Qed.

Lemma references_round_trip_witness :
  decode_location (Cursor.mk (encode_leb 384 ++ encode_leb 5 ++ [xff]) 0 false)
  = (Ok (384, 5),
     Cursor.mk (encode_leb 384 ++ encode_leb 5 ++ [xff]) 3 false)
  /\ decode_address (Cursor.mk (sample_policy ++ encode_leb 5 ++ [xff]) 0 false)
     = (Ok (sample_policy, 5),
        Cursor.mk (sample_policy ++ encode_leb 5 ++ [xff]) 33 false).
Proof.
  split.
  - apply (proj1 (references_round_trip
                    (Cursor.mk (encode_leb 384 ++ encode_leb 5 ++ [xff]) 0 false)
                    [xff])
             (encode_leb 384) (encode_leb 5) 384 5).
    + apply encode_leb_wire.
    + apply encode_leb_wire.
    + reflexivity.
  - apply (proj2 (references_round_trip
                    (Cursor.mk (sample_policy ++ encode_leb 5 ++ [xff]) 0 false)
                    [xff])
             sample_policy (encode_leb 5) 5).
    + reflexivity.
    + apply encode_leb_wire.
    + reflexivity.
Defined.

(** X11: round trip of a command.  Before a command written as its id
    (32 bytes), its priority, the priority value if and only if the
    priority is 1, the optional policy, the data and an empty list of
    updates, [CommandData] returns exactly these fields and moves the
    cursor past exactly these bytes. *)
Theorem CommandData_round_trip :
  forall cur enc cmd r,
    Wire.command enc cmd ->
    CommandData.updates cmd = [] ->
    rest cur = enc ++ r ->
    CommandData.init cur = (Ok cmd, advance cur (length enc)).
Proof.
  intros cur enc cmd r Henc Hno Hrest.
  apply (CommandData_parses cur enc cmd r Hno Henc Hrest).
Qed.

Lemma sample_basic_command_wire :
  Wire.command sample_basic_command sample_basic_fields.
Proof.
  exists (repeat x11 32), [x01], [x09], [x01; x01; x33], [x00], [x00].
  split; [reflexivity |]. cbn.
  split; [split; reflexivity |].
  split; [apply (Wire.leb_last x01); reflexivity |].
  split; [exists 9; split; [reflexivity | apply (Wire.leb_last x09); reflexivity] |].
  split.
  { apply (Wire.opt_some Wire.blob x01 [x01; x33] [x33]); [discriminate |].
    exists [x01]. split; [reflexivity |].
    apply (Wire.leb_last x01). reflexivity. }
  split.
  { exists [x00]. split; [reflexivity |].
    apply (Wire.leb_last x00). reflexivity. }
  exists [x00], []. split; [reflexivity |]. split; [| constructor].
  apply (Wire.leb_last x00). reflexivity.
Qed.

Lemma CommandData_round_trip_witness :
  CommandData.init (Cursor.mk (xee :: sample_basic_command ++ [xff]) 1 false)
  = (Ok sample_basic_fields,
     Cursor.mk (xee :: sample_basic_command ++ [xff]) 40 false).
Proof.
  apply (CommandData_round_trip
           (Cursor.mk (xee :: sample_basic_command ++ [xff]) 1 false)
           sample_basic_command sample_basic_fields [xff]).
  - exact sample_basic_command_wire.
  - reflexivity.
  - reflexivity.
Defined.

(** ** Segments out of the buffer *)



(** ** Round trip of the header *)

Lemma at_skip (buf : bytes) (k k' : N) (rk : bool) (bs r : bytes) :
  rest (Cursor.mk buf k rk) = bs ++ r ->
  k' = k + N.of_nat (length bs) ->
  rest (Cursor.mk buf k' rk) = r.
Proof.
  intros Hrest ->. apply (rest_advance (Cursor.mk buf k rk) bs r Hrest).
Qed.

Lemma at_u32 (buf : bytes) (k k' : N) (pad r : bytes) (n : N) :
  n < 2 ^ 32 ->
  rest (Cursor.mk buf k true) = pad ++ le_bytes 4 n ++ r ->
  k + N.of_nat (length pad) = align_up 4 k ->
  k' = align_up 4 k + 4 ->
  get_u32 (Cursor.mk buf k true) = (Ok n, Cursor.mk buf k' true)
  /\ rest (Cursor.mk buf k' true) = r.
Proof.
  intros Hn Hrest Hpad ->. split.
  - apply (get_fixed_ok 4 (Cursor.mk buf k true) pad r n).
    + exact Hn.
    + unfold read_pos. cbn [rkyv c]. lia.
    + exact Hrest.
  - rewrite app_assoc in Hrest.
    apply (at_skip buf k _ true _ r Hrest).
    rewrite length_app, le_bytes_length. lia.
Qed.

Lemma at_absent {A} (D : Cursor.M A) (buf : bytes) (k k' : N) (r : bytes) :
  rest (Cursor.mk buf k true) = x00 :: r ->
  k' = k + 1 ->
  get_option D (Cursor.mk buf k true) = (Ok None, Cursor.mk buf k' true)
  /\ rest (Cursor.mk buf k' true) = r.
Proof.
  intros Hrest ->. split.
  - unfold get_option.
    rewrite (bind_ok _ _ _ _ _ (get_bool_ok _ _ _ Hrest)). reflexivity.
  - apply (at_skip buf k _ true [x00] r Hrest). reflexivity.
Qed.

Lemma at_present {A} (D : Cursor.M A) (buf : bytes) (k : N) (r : bytes)
      (v : A) (cur' : Cursor.t) :
  rest (Cursor.mk buf k true) = x01 :: r ->
  D (Cursor.mk buf (k + 1) true) = (Ok v, cur') ->
  get_option D (Cursor.mk buf k true) = (Ok (Some v), cur').
Proof.
  intros Hrest HD. unfold get_option.
  rewrite (bind_ok _ _ _ _ _ (get_bool_ok _ _ _ Hrest)).
  cbn [negb N.eqb Byte.to_N]. unfold advance, set_c. cbn [b c rkyv].
  change (k + N.of_nat 1) with (k + 1).
  rewrite (bind_ok _ _ _ _ _ HD). reflexivity.
Qed.

Lemma at_raw32 (buf : bytes) (k k' : N) (g r : bytes) :
  length g = 32%nat ->
  rest (Cursor.mk buf k true) = g ++ r ->
  k' = k + 32 ->
  get_bytes 32 (Cursor.mk buf k true) = (Ok g, Cursor.mk buf k' true)
  /\ rest (Cursor.mk buf k' true) = r.
Proof.
  intros Hg Hrest ->. split.
  - pose proof (get_bytes_ok _ _ _ Hrest) as H. rewrite Hg in H. exact H.
  - apply (at_skip buf k _ true g r Hrest). rewrite Hg. reflexivity.
Qed.

Lemma at_align (buf : bytes) (k k' : N) :
  k' = align_up 4 k ->
  align 4 (Cursor.mk buf k true) = (Ok tt, Cursor.mk buf k' true).
Proof. intros ->. apply align_4_run. Qed.

Lemma Header_decode_encoded (h : Header.t) (tail : bytes) :
  header_fits h ->
  Header.init (encode_header h ++ tail)
  = (Ok h,
     Cursor.mk (encode_header h ++ tail)
       (N.of_nat (length (encode_header h))) true).
Proof.
  destruct h as [epoch gid head stored].
  intros (Hepoch & Hstored & Hgid & Hhead). cbn in Hepoch, Hstored, Hgid, Hhead.
  unfold Header.init, Header.decode.
  remember (encode_header (Header.mk epoch gid head stored) ++ tail) as buf
    eqn:Hbuf.
  assert (H0 : exists R,
             rest (Cursor.mk buf 0 true)
             = STORAGE_HEADER_MAGIC ++ le_bytes 4 epoch ++ R
             /\ R = (match gid with Some g => [x01] ++ g | None => [x00] end)
                      ++ [x00; x00; x00]
                      ++ (match head with
                          | Some p => [x01; x00; x00; x00] ++ le_bytes 4 (fst p)
                                        ++ le_bytes 4 (snd p)
                          | None => [x00; x00; x00; x00]
                          end)
                      ++ le_bytes 4 stored ++ tail).
  { eexists. split; [| reflexivity].
    unfold rest. cbn [c b skipn N.to_nat]. rewrite Hbuf.
    unfold encode_header.
    cbn [Header.epoch Header.graph_id Header.head Header.stored_bytes].
    repeat rewrite <- app_assoc. reflexivity. }
  destruct H0 as (R & H0 & HR).
  (* the magic *)
  pose proof (get_bytes_ok _ _ _ H0) as Hmagic.
  change (get_bytes (N.of_nat (length STORAGE_HEADER_MAGIC)))
    with (get_bytes 4) in Hmagic.
  change (advance (Cursor.mk buf 0 true) (length STORAGE_HEADER_MAGIC))
    with (Cursor.mk buf 4 true) in Hmagic.
  change (Cursor.init buf true) with (Cursor.mk buf 0 true).
  rewrite (bind_ok _ _ _ _ _ Hmagic).
  change (negb (bytes_eqb STORAGE_HEADER_MAGIC STORAGE_HEADER_MAGIC))
    with false. cbv iota.
  pose proof (at_skip buf 0 4 true _ _ H0 eq_refl) as H4.
  (* the epoch *)
  destruct (at_u32 buf 4 8 [] _ epoch Hepoch H4 eq_refl eq_refl) as [He H8].
  rewrite (bind_ok _ _ _ _ _ He). subst R.
  (* the identifier, the head and the stored bytes *)
  destruct gid as [g |]; destruct head as [[h0 h1] |];
    cbn [fst snd] in *; repeat rewrite <- app_assoc in H8; cbn [app] in H8.
  - pose proof (at_skip buf 8 9 true [x01] _ H8 eq_refl) as H9.
    destruct (at_raw32 buf 9 41 g _ Hgid H9 eq_refl) as [Hg H41].
    rewrite (bind_ok _ _ _ _ _ (at_present _ buf 8 _ g _ H8 Hg)).
    rewrite (bind_ok _ _ _ _ _ (at_align buf 41 44 eq_refl)).
    pose proof (at_skip buf 41 44 true [x00; x00; x00] _ H41 eq_refl) as H44.
    pose proof (at_skip buf 44 45 true [x01] _ H44 eq_refl) as H45.
    destruct Hhead as [Hh0 Hh1].
    destruct (at_u32 buf 45 52 [x00; x00; x00] _ h0 Hh0 H45 eq_refl eq_refl)
      as [Ha H52].
    destruct (at_u32 buf 52 56 [] _ h1 Hh1 H52 eq_refl eq_refl) as [Hb H56].
    assert (Hpair : (a <- get_u32 ;; b <- get_u32 ;; ret (a, b))
                      (Cursor.mk buf (44 + 1) true)
                    = (Ok (h0, h1), Cursor.mk buf 56 true)).
    { change (44 + 1) with 45.
      rewrite (bind_ok _ _ _ _ _ Ha), (bind_ok _ _ _ _ _ Hb). reflexivity. }
    rewrite (bind_ok _ _ _ _ _ (at_present _ buf 44 _ _ _ H44 Hpair)).
    destruct (at_u32 buf 56 60 [] _ stored Hstored H56 eq_refl eq_refl)
      as [Hs _].
    rewrite (bind_ok _ _ _ _ _ Hs). unfold ret. do 2 f_equal.
    unfold encode_header. cbn. rewrite !length_app, Hgid. reflexivity.
  - pose proof (at_skip buf 8 9 true [x01] _ H8 eq_refl) as H9.
    destruct (at_raw32 buf 9 41 g _ Hgid H9 eq_refl) as [Hg H41].
    rewrite (bind_ok _ _ _ _ _ (at_present _ buf 8 _ g _ H8 Hg)).
    rewrite (bind_ok _ _ _ _ _ (at_align buf 41 44 eq_refl)).
    pose proof (at_skip buf 41 44 true [x00; x00; x00] _ H41 eq_refl) as H44.
    destruct (at_absent (a <- get_u32 ;; b <- get_u32 ;; ret (a, b))
                buf 44 45 _ H44 eq_refl) as [Hnone H45].
    rewrite (bind_ok _ _ _ _ _ Hnone).
    destruct (at_u32 buf 45 52 [x00; x00; x00] _ stored Hstored H45
                eq_refl eq_refl) as [Hs _].
    rewrite (bind_ok _ _ _ _ _ Hs). unfold ret. do 2 f_equal.
    unfold encode_header. cbn. rewrite !length_app, Hgid. reflexivity.
  - destruct (at_absent (get_bytes 32) buf 8 9 _ H8 eq_refl) as [Hnone H9].
    rewrite (bind_ok _ _ _ _ _ Hnone).
    rewrite (bind_ok _ _ _ _ _ (at_align buf 9 12 eq_refl)).
    pose proof (at_skip buf 9 12 true [x00; x00; x00] _ H9 eq_refl) as H12.
    pose proof (at_skip buf 12 13 true [x01] _ H12 eq_refl) as H13.
    destruct Hhead as [Hh0 Hh1].
    destruct (at_u32 buf 13 20 [x00; x00; x00] _ h0 Hh0 H13 eq_refl eq_refl)
      as [Ha H20].
    destruct (at_u32 buf 20 24 [] _ h1 Hh1 H20 eq_refl eq_refl) as [Hb H24].
    assert (Hpair : (a <- get_u32 ;; b <- get_u32 ;; ret (a, b))
                      (Cursor.mk buf (12 + 1) true)
                    = (Ok (h0, h1), Cursor.mk buf 24 true)).
    { change (12 + 1) with 13.
      rewrite (bind_ok _ _ _ _ _ Ha), (bind_ok _ _ _ _ _ Hb). reflexivity. }
    rewrite (bind_ok _ _ _ _ _ (at_present _ buf 12 _ _ _ H12 Hpair)).
    destruct (at_u32 buf 24 28 [] _ stored Hstored H24 eq_refl eq_refl)
      as [Hs _].
    rewrite (bind_ok _ _ _ _ _ Hs). reflexivity.
  - destruct (at_absent (get_bytes 32) buf 8 9 _ H8 eq_refl) as [Hnone H9].
    rewrite (bind_ok _ _ _ _ _ Hnone).
    rewrite (bind_ok _ _ _ _ _ (at_align buf 9 12 eq_refl)).
    pose proof (at_skip buf 9 12 true [x00; x00; x00] _ H9 eq_refl) as H12.
    destruct (at_absent (a <- get_u32 ;; b <- get_u32 ;; ret (a, b))
                buf 12 13 _ H12 eq_refl) as [Hnone' H13].
    rewrite (bind_ok _ _ _ _ _ Hnone').
    destruct (at_u32 buf 13 20 [x00; x00; x00] _ stored Hstored H13
                eq_refl eq_refl) as [Hs _].
    rewrite (bind_ok _ _ _ _ _ Hs). reflexivity.
Qed.

(** X13: round trip of the header.  A header whose numbers fit 32 bits
    and whose graph_id, if any, has 32 bytes, written in the word-aligned
    layout (magic, epoch, flag and bytes of graph_id, padding to a multiple
    of 4, flag of head, padding to a multiple of 4, the two words of the
    head if any, stored_bytes), is decoded to these very fields whatever
    follows it, and the cursor ends right after it. *)
Theorem Header_round_trip :
  forall h tail,
    header_fits h ->
    Header.init (encode_header h ++ tail)
    = (Ok h,
       Cursor.mk (encode_header h ++ tail)
         (N.of_nat (length (encode_header h))) true).
Proof. intros h tail Hfits. apply Header_decode_encoded, Hfits. Qed.

Lemma Header_round_trip_witness :
  Header.init
    (encode_header (Header.mk 7 (Some sample_policy) (Some (384, 2)) 4600)
       ++ [xff])
  = (Ok (Header.mk 7 (Some sample_policy) (Some (384, 2)) 4600),
     Cursor.mk
       (encode_header (Header.mk 7 (Some sample_policy) (Some (384, 2)) 4600)
          ++ [xff])
       60 true).
Proof.
  apply (Header_round_trip
           (Header.mk 7 (Some sample_policy) (Some (384, 2)) 4600) [xff]).
  repeat split; reflexivity.
Defined.
(** ** What the walk keeps, whatever happens *)

Lemma walk_loop_grows (bs : bytes) (fuel : nat) :
  (forall o w,
      dot (snd (walk_segment_tree bs fuel o w)) = dot w
      /\ exists new,
          segments (snd (walk_segment_tree bs fuel o w)) = segments w ++ new) ->
  forall (l : list (N * N)) w,
    dot (snd (for_each l (fun p => walk_segment_tree bs fuel (fst p)) w))
    = dot w
    /\ exists new,
        segments (snd (for_each l
                         (fun p => walk_segment_tree bs fuel (fst p)) w))
        = segments w ++ new.
Proof.
  intros IH l. induction l as [| p l IHl]; intros w; cbn [for_each].
  - cbn. split; [reflexivity | exists []; rewrite app_nil_r; reflexivity].
  - unfold bind. destruct (IH (fst p) w) as (Hd & n1 & Hs).
    destruct (walk_segment_tree bs fuel (fst p) w) as [[[] | e |] w1];
      cbn [snd] in *.
    + destruct (IHl w1) as (Hd' & n2 & Hs'). split.
      * rewrite Hd'. exact Hd.
      * exists (n1 ++ n2). rewrite Hs', Hs, app_assoc. reflexivity.
    + split; [exact Hd | exists n1; exact Hs].
    + split; [exact Hd | exists n1; exact Hs].
Qed.

Lemma walk_grows (bs : bytes) (fuel : nat) :
  forall o w,
    dot (snd (walk_segment_tree bs fuel o w)) = dot w
    /\ exists new,
        segments (snd (walk_segment_tree bs fuel o w)) = segments w ++ new.
Proof.
  induction fuel as [| fuel IH]; intros o w.
  - cbn. split; [reflexivity | exists []; rewrite app_nil_r; reflexivity].
  - rewrite walk_step.
    destruct (dict_contains o (segments w)) eqn:Hin.
    + cbn. split; [reflexivity | exists []; rewrite app_nil_r; reflexivity].
    + destruct (Segment.read bs o) as [seg | e |].
      * rewrite (dict_set_new _ _ _ Hin).
        destruct (walk_loop_grows bs fuel IH (values (Segment.prior seg))
                    (mkWorld (segments w ++ [(o, seg)]) (dot w)
                       (calls w ++ [o]))) as (Hd & n & Hs).
        cbn [segments dot] in Hd, Hs. split; [exact Hd |].
        exists ((o, seg) :: n). rewrite Hs, <- app_assoc. reflexivity.
      * cbn. split; [reflexivity | exists []; rewrite app_nil_r; reflexivity].
      * cbn. split; [reflexivity | exists []; rewrite app_nil_r; reflexivity].
Qed.

(** X14: the walk only adds to the map.  Whether it returns or raises,
    [walk_segment_tree] leaves every segment that was mapped in its place
    in [segments], with new ones after them, and does not touch
    [graph.dot]. *)
Theorem walk_only_appends :
  forall bs fuel o w,
    dot (snd (walk_segment_tree bs fuel o w)) = dot w
    /\ exists new,
        segments (snd (walk_segment_tree bs fuel o w)) = segments w ++ new.
Proof. intros bs fuel o w. apply walk_grows. Qed.




(** ** The depth of the walk *)

Lemma walk_loop_fuel (bs : bytes) (fuel : nat) :
  (forall o w,
      fst (walk_segment_tree bs fuel o w) <> OutOfFuel ->
      walk_segment_tree bs (S fuel) o w = walk_segment_tree bs fuel o w) ->
  forall (l : list (N * N)) w,
    fst (for_each l (fun p => walk_segment_tree bs fuel (fst p)) w)
    <> OutOfFuel ->
    for_each l (fun p => walk_segment_tree bs (S fuel) (fst p)) w
    = for_each l (fun p => walk_segment_tree bs fuel (fst p)) w.
Proof.
  intros IH l. induction l as [| p l IHl]; intros w H; [reflexivity |].
  cbn [for_each] in *. unfold bind in *.
  destruct (walk_segment_tree bs fuel (fst p) w) as [[[] | e |] w1] eqn:Hp;
    cbn [fst] in H.
  - rewrite IH by (rewrite Hp; discriminate). rewrite Hp. apply IHl, H.
  - rewrite IH by (rewrite Hp; discriminate). rewrite Hp. reflexivity.
  - contradiction.
Qed.

Lemma walk_fuel_step (bs : bytes) (fuel : nat) :
  forall o w,
    fst (walk_segment_tree bs fuel o w) <> OutOfFuel ->
    walk_segment_tree bs (S fuel) o w = walk_segment_tree bs fuel o w.
Proof.
  induction fuel as [| fuel IH]; intros o w H.
  - exfalso. apply H. reflexivity.
  - rewrite (walk_step bs (S fuel)). rewrite walk_step in H |- *.
    destruct (dict_contains o (segments w)); [reflexivity |].
    destruct (Segment.read bs o) as [seg | e |]; try reflexivity.
    apply (walk_loop_fuel bs fuel IH), H.
Qed.

Lemma walk_fuel_enough (bs : bytes) (o : N) (w : World) (k : nat) :
  mapped_in bs w ->
  walk_segment_tree bs (S (length bs) + k) o w
  = walk_segment_tree bs (S (length bs)) o w.
Proof.
  intros Hw. induction k as [| k IH].
  - rewrite Nat.add_0_r. reflexivity.
  - rewrite Nat.add_succ_r, <- IH. apply walk_fuel_step.
    apply walk_total; [exact Hw | lia].
Qed.

(** X16: the walk ends.  From an empty map the walk returns or raises
    within a recursion depth of [len(b) + 1], on every buffer and so also
    when prior references form a cycle; any larger bound on the depth
    gives the same result and the same state. *)
Theorem walk_ends :
  forall bs fuel o d cs,
    (length bs < fuel)%nat ->
    fst (walk_segment_tree bs fuel o (mkWorld [] d cs)) <> OutOfFuel
    /\ walk_segment_tree bs fuel o (mkWorld [] d cs)
       = walk_segment_tree bs (S (length bs)) o (mkWorld [] d cs).
Proof.
  intros bs fuel o d cs Hfuel.
  assert (Hw : mapped_in bs (mkWorld [] d cs)) by (split; constructor).
  split.
  - apply walk_total; [exact Hw | cbn; lia].
  - replace fuel with (S (length bs) + (fuel - S (length bs)))%nat by lia.
    apply walk_fuel_enough, Hw.
Qed.

Lemma walk_ends_witness :
  fst (walk_segment_tree sample_cycle_dump 5000 0 (mkWorld [] None []))
  <> OutOfFuel
  /\ walk_segment_tree sample_cycle_dump 5000 0 (mkWorld [] None [])
     = walk_segment_tree sample_cycle_dump (S (length sample_cycle_dump)) 0
         (mkWorld [] None []).
Proof.
  apply (walk_ends sample_cycle_dump 5000 0 None []).
  vm_compute. lia.
Defined.
(** ** The text of the graph *)

Lemma to_uint_nonnil (n : N) : N.to_uint n <> Decimal.Nil.
Proof.
  destruct n as [| p]; [discriminate |].
  apply DecimalPos.Unsigned.to_uint_nonnil.
Qed.

Lemma str_inj (n m : N) : str n = str m -> n = m.
Proof.
  unfold str. intros H.
  apply DecimalN.Unsigned.to_uint_inj.
  apply (f_equal NilZero.uint_of_string) in H.
  rewrite !NilZero.usu in H by apply to_uint_nonnil.
  injection H as H. exact H.
Qed.

Lemma digits_of_uint (d : Decimal.uint) (ch : ascii) :
  In ch (list_ascii_of_string (NilEmpty.string_of_uint d)) ->
  (48 <=? N_of_ascii ch) && (N_of_ascii ch <=? 57) = true.
Proof.
  induction d as [| d IH | d IH | d IH | d IH | d IH | d IH | d IH | d IH
                  | d IH | d IH];
    simpl; intros H; try contradiction;
    destruct H as [<- | H]; (reflexivity || apply IH, H).
Qed.

Lemma str_digits (n : N) (ch : ascii) :
  In ch (list_ascii_of_string (str n)) ->
  (48 <=? N_of_ascii ch) && (N_of_ascii ch <=? 57) = true.
Proof.
  unfold str, NilZero.string_of_uint.
  destruct (N.to_uint n) eqn:Hd; try apply digits_of_uint.
  simpl. intros [<- | []]. reflexivity.
Qed.

Lemma append_cancel (a s t : string) :
  (a ++ s)%string = (a ++ t)%string -> s = t.
Proof.
  induction a as [| ch a IH]; simpl; intros H; [exact H |].
  injection H as H. apply IH, H.
Qed.

Lemma digits_then_sep (sep : ascii) (a a' s t : string) :
  (48 <=? N_of_ascii sep) && (N_of_ascii sep <=? 57) = false ->
  (forall ch, In ch (list_ascii_of_string a) ->
              (48 <=? N_of_ascii ch) && (N_of_ascii ch <=? 57) = true) ->
  (forall ch, In ch (list_ascii_of_string a') ->
              (48 <=? N_of_ascii ch) && (N_of_ascii ch <=? 57) = true) ->
  (a ++ String sep s)%string = (a' ++ String sep t)%string ->
  a = a'.
Proof.
  intros Hsep. revert a'.
  induction a as [| ch a IH]; intros [| ch' a'] Ha Ha' H; simpl in H.
  - reflexivity.
  - injection H as Hch _. exfalso.
    specialize (Ha' ch' (or_introl eq_refl)). rewrite <- Hch, Hsep in Ha'.
    discriminate.
  - injection H as Hch _. exfalso.
    specialize (Ha ch (or_introl eq_refl)). rewrite Hch, Hsep in Ha.
    discriminate.
  - injection H as -> H. f_equal.
    apply (IH a').
    + intros c0 Hc0. apply Ha. right. exact Hc0.
    + intros c0 Hc0. apply Ha'. right. exact Hc0.
    + exact H.
Qed.

Lemma str_then_sep (sep : ascii) (n m : N) (s t : string) :
  (48 <=? N_of_ascii sep) && (N_of_ascii sep <=? 57) = false ->
  (str n ++ String sep s)%string = (str m ++ String sep t)%string ->
  n = m.
Proof.
  intros Hsep H. apply str_inj.
  apply (digits_then_sep sep _ _ s t Hsep); [apply str_digits .. | exact H].
Qed.

(** X17: the text of the graph names the segments apart.  Two node lines
    are equal only for the same offset, and two edge lines only for the
    same source and the same target: the offsets are written in decimal
    and fenced by characters that are no digits. *)
Theorem graph_lines_injective :
  forall o o' p p',
    (node_line o = node_line o' -> o = o')
    /\ (edge_line o p = edge_line o' p' -> o = o' /\ p = p').
Proof.
  intros o o' p p'. split.
  - unfold node_line. intros H.
    apply (append_cancel "    segment_") in H.
    apply (str_then_sep " " o o' _ _ eq_refl H).
  - unfold edge_line. intros H.
    apply (append_cancel "    segment_") in H.
    assert (Ho : o = o') by apply (str_then_sep " " o o' _ _ eq_refl H).
    subst o'. split; [reflexivity |].
    apply append_cancel in H.
    apply (append_cancel " -> segment_") in H.
    unfold nl in H.
    apply (str_then_sep (ascii_of_N 10) p p' EmptyString EmptyString eq_refl H).
Qed.

Lemma graph_lines_injective_witness :
  (384 = 384) /\ (384 = 384 /\ 128 = 128).
Proof.
  split.
  - apply (proj1 (graph_lines_injective 384 384 0 0)). reflexivity.
  - apply (proj2 (graph_lines_injective 384 384 128 128)). reflexivity.
Defined.

(** ** The text of byte strings *)

Lemma concat_empty_cons (x : string) (l : list string) :
  String.concat "" (x :: l) = (x ++ String.concat "" l)%string.
Proof.
  destruct l as [| y l]; simpl.
  - induction x as [| ch x IH]; simpl; [reflexivity | rewrite <- IH at 1].
    reflexivity.
  - reflexivity.
Qed.

Lemma hexstr_cons (x : byte) (bs : bytes) :
  hexstr (x :: bs)
  = String (hex_digit (Byte.to_N x / 16))
      (String (hex_digit (Byte.to_N x mod 16)) (hexstr bs)).
Proof. unfold hexstr. cbn [map]. rewrite concat_empty_cons. reflexivity. Qed.

Lemma small_cases (d : N) :
  d < 16 ->
  d = 0 \/ d = 1 \/ d = 2 \/ d = 3 \/ d = 4 \/ d = 5 \/ d = 6 \/ d = 7
  \/ d = 8 \/ d = 9 \/ d = 10 \/ d = 11 \/ d = 12 \/ d = 13 \/ d = 14
  \/ d = 15.
Proof. lia. Qed.

Lemma hex_digit_inj (d d' : N) :
  d < 16 -> d' < 16 -> hex_digit d = hex_digit d' -> d = d'.
Proof.
  intros Hd Hd' H.
  apply small_cases in Hd. apply small_cases in Hd'.
  repeat (destruct Hd as [-> | Hd]); try subst d;
    repeat (destruct Hd' as [-> | Hd']); try subst d';
    (reflexivity || (exfalso; vm_compute in H; discriminate H)).
Qed.

Lemma byte_nibbles_inj (x y : byte) :
  Byte.to_N x / 16 = Byte.to_N y / 16 ->
  Byte.to_N x mod 16 = Byte.to_N y mod 16 -> x = y.
Proof.
  intros Hq Hr.
  assert (H : Byte.to_N x = Byte.to_N y).
  { rewrite (N.div_mod (Byte.to_N x) 16), (N.div_mod (Byte.to_N y) 16)
      by discriminate.
    rewrite Hq, Hr. reflexivity. }
  apply (f_equal Byte.of_N) in H. rewrite !Byte.of_to_N in H.
  injection H as H. exact H.
Qed.

(** X18: [hexstr] writes two characters for each byte, and it tells
    byte strings apart: equal texts come from equal byte strings. *)
Theorem hexstr_faithful :
  forall bs bs',
    String.length (hexstr bs) = (2 * length bs)%nat
    /\ (hexstr bs = hexstr bs' -> bs = bs').
Proof.
  intros bs bs'. split.
  - induction bs as [| x bs IH]; [reflexivity |].
    rewrite hexstr_cons. cbn [String.length length]. rewrite IH. lia.
  - revert bs'. induction bs as [| x bs IH]; intros [| y bs'] H.
    + reflexivity.
    + rewrite hexstr_cons in H. discriminate H.
    + rewrite hexstr_cons in H. discriminate H.
    + rewrite !hexstr_cons in H. injection H as Hhi Hlo Hrest.
      f_equal; [| apply IH, Hrest].
      pose proof (byte_lt_256 x) as Hx. pose proof (byte_lt_256 y) as Hy.
      apply byte_nibbles_inj.
      * apply hex_digit_inj; [| | exact Hhi];
          apply N.Div0.div_lt_upper_bound; lia.
      * apply hex_digit_inj; [| | exact Hlo]; apply N.mod_lt; discriminate.
Qed.

Lemma hexstr_faithful_witness :
  String.length (hexstr [x1c; x53; x4f; x00]) = (2 * 4)%nat
  /\ [x1c; x53; x4f; x00] = STORAGE_HEADER_MAGIC.
Proof.
  split.
  - apply (proj1 (hexstr_faithful [x1c; x53; x4f; x00] [])).
  - apply (proj2 (hexstr_faithful [x1c; x53; x4f; x00] STORAGE_HEADER_MAGIC)).
    reflexivity.
Defined.
(** ** Blobs and sequences read back *)

(** X19: round trip of the length-prefixed forms.  A blob written as its
    length and its bytes is read back whole by [get_byte_array]; a sequence
    written as its count and its elements one after the other is read back,
    in order, by [get_array], and by [get_prior] when it has at most 2
    elements, given a decoder that reads each element back. *)
Theorem length_prefixed_round_trip :
  forall (A : Type) (D : Cursor.M A) (F : Wire.format A) cur r,
    (forall v,
        rest cur = encode_leb (N.of_nat (length v)) ++ v ++ r ->
        get_byte_array cur
        = (Ok v, advance cur (length (encode_leb (N.of_nat (length v)))
                              + length v)))
    /\ (parses D F ->
        forall enc vs,
          Wire.seq F enc vs ->
          rest cur = encode_leb (N.of_nat (length vs)) ++ enc ++ r ->
          get_array D cur
          = (Ok vs,
             advance cur (length (encode_leb (N.of_nat (length vs)))
                          + length enc))
          /\ ((length vs <= 2)%nat ->
              get_prior D cur
              = (Ok (mkPrior vs),
                 advance cur (length (encode_leb (N.of_nat (length vs)))
                              + length enc)))).
Proof.
  intros A D F cur r. split.
  - intros v Hrest. rewrite <- length_app.
    apply (get_byte_array_parses cur _ v r).
    + exists (encode_leb (N.of_nat (length v))).
      split; [reflexivity | apply encode_leb_wire].
    + rewrite <- app_assoc. exact Hrest.
  - intros HD enc vs Hseq Hrest. rewrite <- length_app.
    rewrite app_assoc in Hrest.
    assert (Hcounted : Wire.counted F
                         (encode_leb (N.of_nat (length vs)) ++ enc) vs).
    { exists (encode_leb (N.of_nat (length vs))), enc.
      split; [reflexivity |]. split; [apply encode_leb_wire | exact Hseq]. }
    split.
    + apply (get_array_parses (fun _ => True) D F
               (parses_on_all _ _ _ HD) cur _ vs r
               (Forall_True vs) Hcounted Hrest).
    + intros Hle.
      apply (get_prior_parses (fun _ => True) D F
               (parses_on_all _ _ _ HD) cur _ (mkPrior vs) r
               (Forall_True vs)); [| exact Hrest].
      split; [exact Hle | exact Hcounted].
Qed.

Lemma length_prefixed_round_trip_witness :
  get_byte_array (Cursor.mk (encode_leb 2 ++ [xaa; xbb] ++ [xff]) 0 false)
  = (Ok [xaa; xbb], Cursor.mk (encode_leb 2 ++ [xaa; xbb] ++ [xff]) 3 false)
  /\ get_array get_leb
       (Cursor.mk (encode_leb 2 ++ (encode_leb 300 ++ encode_leb 7 ++ [])
                     ++ [xff]) 0 false)
     = (Ok [300; 7],
        Cursor.mk (encode_leb 2 ++ (encode_leb 300 ++ encode_leb 7 ++ [])
                     ++ [xff]) 4 false).
Proof.
  split.
  - apply (proj1 (length_prefixed_round_trip N get_leb Wire.leb
                    (Cursor.mk (encode_leb 2 ++ [xaa; xbb] ++ [xff]) 0 false)
                    [xff]) [xaa; xbb]).
    reflexivity.
  - refine (proj1 (proj2 (length_prefixed_round_trip N get_leb Wire.leb
                            (Cursor.mk
                               (encode_leb 2
                                  ++ (encode_leb 300 ++ encode_leb 7 ++ [])
                                  ++ [xff]) 0 false)
                            [xff])
                     get_leb_parses
                     (encode_leb 300 ++ encode_leb 7 ++ []) [300; 7] _ _)).
    + apply Wire.seq_cons; [apply encode_leb_wire |].
      apply Wire.seq_cons; [apply encode_leb_wire | apply Wire.seq_nil].
    + reflexivity.
Defined.

(** ** The extent of a header *)

(** X20: a decoded header lies inside the buffer.  When [Header(b)]
    returns, it has read 20 bytes if neither graph_id nor head is present,
    28 with the head only, 52 with the graph_id only and 60 with both, and
    the buffer has at least that many bytes. *)
Theorem Header_extent :
  forall bs h cur',
    Header.init bs = (Ok h, cur') ->
    c cur'
    = match Header.graph_id h, Header.head h with
      | None, None => 20
      | None, Some _ => 28
      | Some _, None => 52
      | Some _, Some _ => 60
      end
    /\ c cur' <= N.of_nat (length bs)
    /\ b cur' = bs.
Proof.
  intros bs h cur' H.
  destruct (Header_fields bs h cur' H)
    as (_ & _ & gflag & hflag & _ & Hg0 & Hg1 & _ & Hh0 & Hh1).
  assert (Hlast : forall pos v,
             unpack_from_I bs pos = Ok v -> pos + 4 <= N.of_nat (length bs)).
  { intros pos v Hv. apply unpack_from_I_ok in Hv. destruct Hv as [Hlen _].
    rewrite length_slice in Hlen. lia. }
  destruct (N.eq_dec hflag 0) as [Hhz | Hhnz].
  - destruct (Hh0 Hhz) as (Hhead & Hstored & ->). rewrite Hhead.
    apply Hlast in Hstored. cbn [c b].
    destruct (N.eq_dec gflag 0) as [Hgz | Hgnz].
    + rewrite (Hg0 Hgz). subst gflag. cbn in *. repeat split; lia.
    + rewrite (Hg1 Hgnz). unfold head_flag_pos in *.
      destruct (N.eqb_spec gflag 0); [contradiction |].
      repeat split; lia.
  - destruct (Hh1 Hhnz) as (h0 & h1 & Hhead & _ & _ & Hstored & ->).
    rewrite Hhead. apply Hlast in Hstored. cbn [c b].
    destruct (N.eq_dec gflag 0) as [Hgz | Hgnz].
    + rewrite (Hg0 Hgz). subst gflag. cbn in *. repeat split; lia.
    + rewrite (Hg1 Hgnz). unfold head_flag_pos in *.
      destruct (N.eqb_spec gflag 0); [contradiction |].
      repeat split; lia.
Qed.

Lemma Header_extent_witness :
  c (Cursor.mk sample_header 28 true)
  = match Header.graph_id sample_header_fields,
          Header.head sample_header_fields with
    | None, None => 20
    | None, Some _ => 28
    | Some _, None => 52
    | Some _, Some _ => 60
    end
  /\ c (Cursor.mk sample_header 28 true) <= N.of_nat (length sample_header)
  /\ b (Cursor.mk sample_header 28 true) = sample_header.
Proof.
  apply (Header_extent sample_header sample_header_fields
           (Cursor.mk sample_header 28 true)).
  reflexivity.
Defined.

(** ** Raw fields of a decoded segment are whole *)

Lemma get_leb_inside (cur : Cursor.t) (v : N) (cur' : Cursor.t) :
  get_leb cur = (Ok v, cur') ->
  c cur < N.of_nat (length (b cur)) /\ c cur' <= N.of_nat (length (b cur')).
Proof.
  intros H. unfold get_leb in H.
  apply bind_inv in H. destruct H as (bv & cur1 & Hu8 & H).
  apply get_u8_cases in Hu8. destruct Hu8 as (x & r & Hrest & -> & ->).
  apply bind_inv in H. destruct H as ([bv vl] & cur2 & Hloop & H).
  apply ret_inv in H. destruct H as [_ <-].
  apply leb_while_inv in Hloop.
  destruct Hloop as (tl & n & _ & Hr & -> & _).
  rewrite (rest_advance_1 cur x r Hrest) in Hr.
  pose proof (f_equal (@length byte) Hrest) as Hlen.
  unfold rest in Hlen. rewrite length_skipn in Hlen. simpl in Hlen.
  pose proof (f_equal (@length byte) Hr) as Hlen'.
  rewrite length_app in Hlen'.
  unfold advance, set_c. cbn [b c]. split; lia.
Qed.

Lemma raw_then_leb (n : N) (cur : Cursor.t) (v : bytes) (cur1 : Cursor.t)
      (l : N) (cur2 : Cursor.t) :
  get_bytes n cur = (Ok v, cur1) ->
  get_leb cur1 = (Ok l, cur2) ->
  length v = N.to_nat n.
Proof.
  unfold get_bytes, peek_bytes. intros H Hleb. injection H as <- <-.
  apply get_leb_inside in Hleb. destruct Hleb as [Hin _].
  unfold set_c in Hin. cbn [b c] in Hin.
  rewrite length_slice. lia.
Qed.

Lemma decode_address_whole (cur : Cursor.t) (a : bytes * N) (cur' : Cursor.t) :
  decode_address cur = (Ok a, cur') -> length (fst a) = 32%nat.
Proof.
  unfold decode_address. intros H.
  apply bind_inv in H. destruct H as (id & cur1 & Hid & H).
  apply bind_inv in H. destruct H as (l & cur2 & Hl & H).
  apply ret_inv in H. destruct H as [<- _]. cbn [fst].
  apply (raw_then_leb 32 cur id cur1 l cur2 Hid Hl).
Qed.

Lemma CommandData_whole (cur : Cursor.t) (cmd : CommandData.t)
      (cur' : Cursor.t) :
  CommandData.init cur = (Ok cmd, cur') ->
  length (CommandData.id cmd) = 32%nat.
Proof.
  unfold CommandData.init. intros H.
  apply bind_inv in H. destruct H as (id & cur1 & Hid & H).
  apply bind_inv in H. destruct H as (pr & cur2 & Hpr & H).
  apply bind_inv in H. destruct H as (pv & cur3 & _ & H).
  apply bind_inv in H. destruct H as (pol & cur4 & _ & H).
  apply bind_inv in H. destruct H as (data & cur5 & _ & H).
  apply bind_inv in H. destruct H as (upd & cur6 & _ & H).
  apply ret_inv in H. destruct H as [<- _]. cbn [CommandData.id].
  apply (raw_then_leb 32 cur id cur1 pr cur2 Hid Hpr).
Qed.

Lemma for_range_all {A} (P : A -> Prop) (D : Cursor.M A) :
  (forall cur v cur', D cur = (Ok v, cur') -> P v) ->
  forall n acc cur vs cur',
    for_range n D acc cur = (Ok vs, cur') -> Forall P acc -> Forall P vs.
Proof.
  intros HD n. induction n as [| n IH]; intros acc cur vs cur' H Hacc;
    cbn [for_range] in H.
  - apply ret_inv in H. destruct H as [<- _]. exact Hacc.
  - apply bind_inv in H. destruct H as (v & cur1 & Hv & H).
    apply (IH _ _ _ _ H). apply Forall_app. split; [exact Hacc |].
    constructor; [apply (HD _ _ _ Hv) | constructor].
Qed.

Lemma decode_payload_whole (cur : Cursor.t) (p : Segment.payload)
      (cur' : Cursor.t) :
  Segment.decode_payload cur = (Ok p, cur') ->
  length (Segment.p_policy p) = 32%nat
  /\ Forall (fun a => length (fst a) = 32%nat)
       (values (Segment.p_parents p))
  /\ Forall (fun cmd => length (CommandData.id cmd) = 32%nat)
       (Segment.p_commands p)
  /\ c cur' <= N.of_nat (length (b cur')).
Proof.
  unfold Segment.decode_payload. intros H.
  apply bind_inv in H. destruct H as (off & s1 & _ & H).
  apply bind_inv in H. destruct H as (pri & s2 & _ & H).
  apply bind_inv in H. destruct H as (par & s3 & Hpar & H).
  apply bind_inv in H. destruct H as (pol & s4 & Hpol & H).
  apply bind_inv in H. destruct H as (facts & s5 & Hfacts & H).
  apply bind_inv in H. destruct H as (cmds & s6 & Hcmds & H).
  apply bind_inv in H. destruct H as (mc & s7 & Hmc & H).
  apply bind_inv in H. destruct H as (sl & s8 & Hsl & H).
  apply ret_inv in H. destruct H as [<- <-].
  cbn [Segment.p_policy Segment.p_parents Segment.p_commands].
  split; [apply (raw_then_leb 32 s3 pol s4 facts s5 Hpol Hfacts) |].
  split; [| split].
  - unfold get_prior, Prior_init in Hpar.
    apply bind_inv in Hpar. destruct Hpar as (tag & t1 & _ & Hpar).
    destruct (2 <? tag); [discriminate Hpar |].
    apply bind_inv in Hpar. destruct Hpar as (vs & t2 & Hvs & Hpar).
    apply ret_inv in Hpar. destruct Hpar as [<- _]. cbn [values].
    apply (for_range_all _ decode_address decode_address_whole _ _ _ _ _ Hvs).
    constructor.
  - unfold get_array in Hcmds.
    apply bind_inv in Hcmds. destruct Hcmds as (n & t1 & _ & Hcmds).
    apply (for_range_all _ CommandData.init CommandData_whole _ _ _ _ _ Hcmds).
    constructor.
  - unfold get_array in Hsl.
    apply bind_inv in Hsl. destruct Hsl as (n & t1 & Hn & Hsl).
    apply get_leb_inside in Hn. destruct Hn as [_ Hn].
    assert (Hskip : forall k acc cur vs cur',
               c cur <= N.of_nat (length (b cur)) ->
               for_range k Segment.decode_skip acc cur = (Ok vs, cur') ->
               c cur' <= N.of_nat (length (b cur'))).
    { induction k as [| k IH]; intros acc cur0 vs cur0' Hin Hk;
        cbn [for_range] in Hk.
      - apply ret_inv in Hk. destruct Hk as [_ <-]. exact Hin.
      - apply bind_inv in Hk. destruct Hk as (v & cur1 & Hv & Hk).
        refine (IH _ _ _ _ _ Hk).
        unfold Segment.decode_skip in Hv.
        apply bind_inv in Hv. destruct Hv as (u & u1 & _ & Hv).
        apply bind_inv in Hv. destruct Hv as (v' & u2 & _ & Hv).
        apply bind_inv in Hv. destruct Hv as (w & u3 & Hw & Hv).
        apply ret_inv in Hv. destruct Hv as [_ <-].
        apply get_leb_inside in Hw. destruct Hw as [_ Hw]. exact Hw. }
    apply (Hskip _ _ _ _ _ Hn Hsl).
Qed.

(** X21: the raw fields of a decoded segment are whole.  [get_bytes] does
    not check that the bytes it is asked for are there, yet when a segment
    is decoded its policy has exactly 32 bytes and so has the id of each
    of its parents: a shorter read is always followed by a read that
    fails. *)
Theorem Segment_fields_whole :
  forall bs o s,
    Segment.read bs o = Ok s ->
    length (Segment.policy s) = 32%nat
    /\ Forall (fun a => length (fst a) = 32%nat)
         (values (Segment.parents s)).
Proof.
  intros bs o s Hs.
  destruct (Segment_read_ok bs o s Hs)
    as (_ & _ & _ & _ & p & cur' & Hp & _ & Hpar & Hpol & _).
  destruct (decode_payload_whole _ p cur' Hp) as (H1 & H2 & _).
  rewrite Hpol, Hpar. split; assumption.
Qed.

Lemma Segment_fields_whole_witness :
  length (Segment.policy sample_merge_segment) = 32%nat
  /\ Forall (fun a => length (fst a) = 32%nat)
       (values (Segment.parents sample_merge_segment)).
Proof.
  apply (Segment_fields_whole sample_merge_dump 0 sample_merge_segment).
  reflexivity.
Defined.

(** X22: the fields of a payload end inside it, and the ids are whole.
    When the payload of a segment is decoded, the cursor ends inside the
    buffer (what follows the skip list is not read), and the id of every
    command has exactly 32 bytes. *)
Theorem payload_ends_inside :
  forall cur p cur',
    Segment.decode_payload cur = (Ok p, cur') ->
    c cur' <= N.of_nat (length (b cur'))
    /\ b cur' = b cur
    /\ Forall (fun cmd => length (CommandData.id cmd) = 32%nat)
         (Segment.p_commands p).
Proof.
  intros cur p cur' H.
  destruct (decode_payload_whole cur p cur' H) as (_ & _ & Hcmds & Hin).
  split; [exact Hin |]. split; [| exact Hcmds].
  pose proof (frame_decode_payload cur) as (Hb & _).
  rewrite H in Hb. exact Hb.
Qed.

Lemma payload_ends_inside_witness :
  c (Cursor.mk (sample_root_payload ++ [xff; xff]) 39 false)
  <= N.of_nat (length (b (Cursor.mk (sample_root_payload ++ [xff; xff]) 39
                            false)))
  /\ b (Cursor.mk (sample_root_payload ++ [xff; xff]) 39 false)
     = b (Cursor.init (sample_root_payload ++ [xff; xff]) false)
  /\ Forall (fun cmd => length (CommandData.id cmd) = 32%nat)
       (Segment.p_commands sample_root_fields).
Proof.
  apply (payload_ends_inside
           (Cursor.init (sample_root_payload ++ [xff; xff]) false)
           sample_root_fields
           (Cursor.mk (sample_root_payload ++ [xff; xff]) 39 false)).
  reflexivity.
Defined.
